(** * Topic extraction and aggregation of scripts/generate_topics.py

    A shallow embedding of the three stages of the script: the document
    parser [parse_markdown_file], the corpus fold [collect_all_topics] and
    the renderers [generate_main_topic_file] / [generate_attached_topic_file].

    Python strings are sequences of Unicode code points, and both
    [str.strip] and the regular-expression class [\s] are decided by the
    code point (U+3000, the ideographic space, is white space), so a
    string is a list of code points here. *)

From Stdlib Require Import String Ascii NArith List Bool Lia.
From stdpp Require Import gmap list sorting.

Local Open Scope N_scope.
Set Warnings "-clear-no-such-hyp".

(** ** Strings *)

Abbreviation char := N (only parsing).
Abbreviation str := (list N) (only parsing).

(** Source literals are written as UTF-8 byte strings and decoded. *)
Fixpoint utf8_decode (bs : list N) : str :=
  match bs with
  | [] => []
  | b0 :: r0 =>
    if b0 <? 0x80 then b0 :: utf8_decode r0
    else match r0 with
    | [] => []
    | b1 :: r1 =>
      if b0 <? 0xE0 then ((b0 - 0xC0) * 64 + (b1 - 0x80)) :: utf8_decode r1
      else match r1 with
      | [] => []
      | b2 :: r2 =>
        if b0 <? 0xF0
        then (((b0 - 0xE0) * 64 + (b1 - 0x80)) * 64 + (b2 - 0x80)) :: utf8_decode r2
        else match r2 with
        | [] => []
        | b3 :: r3 =>
          ((((b0 - 0xF0) * 64 + (b1 - 0x80)) * 64 + (b2 - 0x80)) * 64 + (b3 - 0x80))
            :: utf8_decode r3
        end
      end
    end
  end.

Definition lit (s : string) : str :=
  utf8_decode (map N_of_ascii (list_ascii_of_string s)).

Definition NL : char := 10.        (* '\n' *)
Definition SP : char := 32.        (* ' ' *)
Definition HASH : char := 35.      (* '#' *)
Definition DASH : char := 45.      (* '-' *)
Definition UNDERSCORE : char := 95. (* '_' *)

(** [Py_UNICODE_ISSPACE]: the test behind [str.strip()] and behind [\s]
    in a [str] pattern. *)
Definition is_space (c : char) : bool :=
  ((9 <=? c) && (c <=? 13)) || ((28 <=? c) && (c <=? 32))
  || (c =? 0x85) || (c =? 0xA0) || (c =? 0x1680)
  || ((0x2000 <=? c) && (c <=? 0x200A))
  || (c =? 0x2028) || (c =? 0x2029) || (c =? 0x202F) || (c =? 0x205F)
  || (c =? 0x3000).

Fixpoint take_while (p : char → bool) (s : str) : str :=
  match s with
  | [] => []
  | c :: r => if p c then c :: take_while p r else []
  end.

Fixpoint drop_while (p : char → bool) (s : str) : str :=
  match s with
  | [] => []
  | c :: r => if p c then drop_while p r else s
  end.

Definition lstrip (s : str) : str := drop_while is_space s.
Definition rstrip (s : str) : str := rev (drop_while is_space (rev s)).
(** [s.strip()] *)
Definition strip (s : str) : str := rstrip (lstrip s).

(** Truth value of a string: [if s:] holds for the non-empty ones. *)
Definition nonempty (s : str) : bool :=
  match s with [] => false | _ :: _ => true end.

Fixpoint str_eqb (a b : str) : bool :=
  match a, b with
  | [], [] => true
  | x :: a', y :: b' => (x =? y) && str_eqb a' b'
  | _, _ => false
  end.

Fixpoint starts_with (p s : str) : bool :=
  match p, s with
  | [], _ => true
  | x :: p', y :: s' => (x =? y) && starts_with p' s'
  | _ :: _, [] => false
  end.

(** [sub in s] on strings: [sub] occurs in [s] as a contiguous run. *)
Fixpoint str_in (sub s : str) : bool :=
  starts_with sub s ||
  match s with
  | [] => false
  | _ :: s' => str_in sub s'
  end.

Definition cons_head (c : char) (ss : list str) : list str :=
  match ss with
  | [] => [[c]]
  | h :: t => (c :: h) :: t
  end.

(** [s.split('\n')]: never empty, one more piece than there are newlines. *)
Fixpoint split_lines (s : str) : list str :=
  match s with
  | [] => [[]]
  | c :: r => if c =? NL then [] :: split_lines r else cons_head c (split_lines r)
  end.

(** ['\n'.join(l)] *)
Fixpoint join_lines (l : list str) : str :=
  match l with
  | [] => []
  | [x] => x
  | x :: r => x ++ NL :: join_lines r
  end.

(** [s.replace(old, new)] for a one-character [old] and [new]. *)
Fixpoint replace_char (old new : char) (s : str) : str :=
  match s with
  | [] => []
  | c :: r => (if c =? old then new else c) :: replace_char old new r
  end.

(** Python compares strings code point by code point, a proper prefix
    being smaller. *)
Fixpoint str_leb (a b : str) : bool :=
  match a, b with
  | [], _ => true
  | _ :: _, [] => false
  | x :: a', y :: b' => (x <? y) || ((x =? y) && str_leb a' b')
  end.

Definition str_le (a b : str) : Prop := str_leb a b = true.
Definition str_lt (a b : str) : Prop := str_le a b ∧ a ≠ b.

Global Instance str_le_dec a b : Decision (str_le a b).
Proof. unfold str_le. apply _. Defined.

(** [sorted(list(s))] for a set of strings. *)
Definition sorted_elements (s : gset str) : list str :=
  merge_sort str_le (elements s).

(** ** Regular expressions of the parser *)

(** [re.match(r'^MARK\s+(.+)$', line)] for a [line] of [split('\n')], which
    holds no newline: the value of [group(1)].  [\s+] takes the whole run of
    white space after the marker; when nothing follows the run, it gives its
    last character back to [(.+)]. *)
Definition re_match_marker (mark line : str) : option str :=
  if starts_with mark line then
    let rest := drop (length mark) line in
    let ws := take_while is_space rest in
    let txt := drop_while is_space rest in
    match ws, txt with
    | [], _ => None
    | _ :: _, _ :: _ => Some txt
    | [_], [] => None
    | _ :: w :: ws', [] => Some [List.last ws' w]
    end
  else None.

(** [r'^###\s+(.+)$'] and [r'^-\s+(.+)$'] *)
Definition topic_match (line : str) : option str := re_match_marker (lit "###") line.
Definition list_match (line : str) : option str := re_match_marker [DASH] line.

(** The last character of [s] that is not a newline. *)
Fixpoint last_non_newline (s : str) : option char :=
  match s with
  | [] => None
  | c :: r =>
    match last_non_newline r with
    | Some d => Some d
    | None => if c =? NL then None else Some c
    end
  end.

(** [r'^#\s+(.+)$'] tried right after a ['#'] that starts a line; [rest] is
    the text after the ['#'].  [\s] also matches newlines here.  When text
    follows the white space, [group(1)] is that text up to the end of its
    line; when the white space runs to the end of the document, [\s+] backs
    off to the last place where [(.+)] can take one character. *)
Definition title_at (rest : str) : option str :=
  let ws := take_while is_space rest in
  let txt := drop_while is_space rest in
  match ws, txt with
  | [], _ => None
  | _ :: _, _ :: _ => Some (take_while (λ c, negb (c =? NL)) txt)
  | _ :: ws', [] =>
    match last_non_newline ws' with
    | Some c => Some [c]
    | None => None
    end
  end.

(** [re.search(r'^#\s+(.+)$', content, re.MULTILINE)]: [group(1)] of the
    first match; [bol] tells that the position starts a line. *)
Fixpoint title_search (bol : bool) (content : str) : option str :=
  match content with
  | [] => None
  | c :: rest =>
    if bol && (c =? HASH) then
      match title_at rest with
      | Some g => Some g
      | None => title_search false rest
      end
    else title_search (c =? NL) rest
  end.

(** [re.split(r'^##\s+', content, flags=re.MULTILINE)].  The result starts
    with the rest of the piece being read.  [eating] holds while the [\s+]
    of a match is still consuming white space; [bol] tells that the
    position follows a newline (or starts the text). *)
Fixpoint re_split_go (bol eating : bool) (content : str) : list str :=
  match content with
  | [] => [[]]
  | c :: rest =>
    if eating && is_space c then re_split_go (c =? NL) true rest
    else
      match rest with
      | c2 :: c3 :: rest' =>
        if bol && (c =? HASH) && (c2 =? HASH) && is_space c3
        then [] :: re_split_go (c3 =? NL) true rest'
        else cons_head c (re_split_go (c =? NL) false rest)
      | _ => cons_head c (re_split_go (c =? NL) false rest)
      end
  end.

Definition re_split_sections (content : str) : list str :=
  re_split_go true false content.

(** ** The parser *)

(** One mention: [{'comment': ..., 'attached': [...]}]. *)
Record mention := Mention {
  m_comment : str;
  m_attached : list str
}.

(** [topics_dict]: a Python [dict], which keeps its keys in the order of
    their first insertion. *)
Abbreviation topics_dict := (list (str * mention)) (only parsing).

(** [d[k] = v] *)
Fixpoint dict_set (k : str) (v : mention) (d : topics_dict) : topics_dict :=
  match d with
  | [] => [(k, v)]
  | (k', v') :: r => if str_eqb k' k then (k', v) :: r else (k', v') :: dict_set k v r
  end.

Fixpoint dict_get (k : str) (d : topics_dict) : option mention :=
  match d with
  | [] => None
  | (k', v') :: r => if str_eqb k' k then Some v' else dict_get k r
  end.

(** The local variables of the loop over the lines of the topics section. *)
Record pstate := PState {
  current_topic : option str;
  attached_topics : list str;
  topic_content : list str;
  in_list : bool
}.

(** [if current_topic:] — set, and not the empty string. *)
Definition has_topic (st : pstate) : bool :=
  match current_topic st with
  | Some t => nonempty t
  | None => false
  end.

(** Lines 55-59 and 87-91: store the mention being read. *)
Definition save_topic (st : pstate) (d : topics_dict) : topics_dict :=
  match current_topic st with
  | Some t =>
    if nonempty t
    then dict_set t (Mention (strip (join_lines (topic_content st))) (attached_topics st)) d
    else d
  | None => d
  end.

Definition set_in_list (b : bool) (st : pstate) : pstate :=
  PState (current_topic st) (attached_topics st) (topic_content st) b.
Definition append_content (line : str) (st : pstate) : pstate :=
  PState (current_topic st) (attached_topics st) (topic_content st ++ [line]) (in_list st).
Definition append_attached (a : str) (st : pstate) : pstate :=
  PState (current_topic st) (attached_topics st ++ [a]) (topic_content st) (in_list st).

(** Lines 50-84: the body of the loop, for one line. *)
Definition parse_line (acc : pstate * topics_dict) (line : str) : pstate * topics_dict :=
  let (st, d) := acc in
  match topic_match line with
  | Some g => (PState (Some (strip g)) [] [] false, save_topic st d)
  | None =>
    if has_topic st then
      match list_match line with
      | Some g =>
        let attached_topic := strip g in
        (set_in_list true
           (if nonempty attached_topic then append_attached attached_topic st else st), d)
      | None =>
        if str_eqb (strip line) [] then
          if in_list st then (set_in_list false st, d)
          else (append_content line st, d)
        else
          if negb (in_list st) then (append_content line st, d)
          else (st, d)
      end
    else (st, d)
  end.

Definition pstate_init : pstate := PState None [] [] false.

(** Lines 45-91: one section titled with the reserved label; [body] is
    [lines[1:]]. *)
Definition parse_topics_section (body : list str) (d : topics_dict) : topics_dict :=
  let (st, d') := fold_left parse_line body (pstate_init, d) in
  save_topic st d'.

(** The reserved section title. *)
Definition topics_label : str := lit "题材".

(** Lines 36-91: the body of the loop over the sections. *)
Definition parse_section (d : topics_dict) (section : str) : topics_dict :=
  if negb (nonempty (strip section)) then d
  else
    let lines := split_lines section in
    let section_title := strip (hd [] lines) in
    if str_eqb section_title topics_label
    then parse_topics_section (tl lines) d
    else d.

(** [parse_markdown_file], on the text read from the file; [stem] is
    [md_file.stem]. *)
Definition parse_markdown_file (content stem : str) : str * topics_dict :=
  let stock_name :=
    match title_search true content with
    | Some g => strip g
    | None => stem
    end in
  (stock_name, fold_left parse_section (re_split_sections content) []).

(** ** The aggregator *)

(** An entry of [main_topics] while the documents are folded in:
    [{'stocks': set(), 'comment': '', 'attached': [], 'stock_attached':
    defaultdict(set)}]. *)
Record topic_acc := TopicAcc {
  a_stocks : gset str;
  a_comment : str;
  a_attached : list str;
  a_stock_attached : gmap str (gset str)
}.

(** The value the [defaultdict] makes for a key it does not hold. *)
Definition topic_acc_default : topic_acc := TopicAcc ∅ [] [] ∅.

(** The four dictionaries of [collect_all_topics].  A dictionary is read
    here only by key and compared as a mapping, so it is a finite map. *)
Record agg_state := AggState {
  main_topics : gmap str topic_acc;
  attached_to_main : gmap str (gset str);
  attached_to_stocks : gmap str (gset str);
  stock_to_path : gmap str str
}.

Definition agg_init : agg_state := AggState ∅ ∅ ∅ ∅.

(** [m[k].add(x)] on a [defaultdict(set)]. *)
Definition set_add (k x : str) (m : gmap str (gset str)) : gmap str (gset str) :=
  <[k := default ∅ (m !! k) ∪ {[x]}]> m.

(** [main_topics[k]], which makes the entry when it is missing. *)
Definition main_entry (k : str) (st : agg_state) : topic_acc :=
  default topic_acc_default (main_topics st !! k).

Definition set_main_entry (k : str) (e : topic_acc) (st : agg_state) : agg_state :=
  AggState (<[k := e]> (main_topics st)) (attached_to_main st)
    (attached_to_stocks st) (stock_to_path st).

(** Lines 133-137: the comment of the entry after one more mention. *)
Definition merge_comment (cur c : str) : str :=
  if nonempty c && negb (nonempty cur) then c
  else if nonempty c && negb (str_in c cur) then cur ++ NL :: c
  else cur.

(** Lines 141-144: one attached name of a mention. *)
Definition fold_attached (stock_name main_topic : str)
    (st : agg_state) (attached_topic : str) : agg_state :=
  if nonempty attached_topic then
    let e := main_entry main_topic st in
    let e' := TopicAcc (a_stocks e) (a_comment e) (a_attached e)
                (set_add stock_name attached_topic (a_stock_attached e)) in
    AggState (<[main_topic := e']> (main_topics st))
      (set_add attached_topic main_topic (attached_to_main st))
      (set_add attached_topic stock_name (attached_to_stocks st))
      (stock_to_path st)
  else st.

(** Lines 130-144: one item of [topics_dict.items()]. *)
Definition fold_mention (stock_name : str) (st : agg_state)
    (item : str * mention) : agg_state :=
  let (main_topic, info) := item in
  let e := main_entry main_topic st in
  let e1 := TopicAcc (a_stocks e ∪ {[stock_name]}) (a_comment e) (a_attached e)
              (a_stock_attached e) in
  let e2 := TopicAcc (a_stocks e1) (merge_comment (a_comment e1) (m_comment info))
              (a_attached e1) (a_stock_attached e1) in
  fold_left (fold_attached stock_name main_topic) (m_attached info)
    (set_main_entry main_topic e2 st).

(** A parsed document with the path of its file relative to [stocks_dir]. *)
Record parsed_doc := ParsedDoc {
  d_stock_name : str;
  d_path : str;
  d_topics : topics_dict
}.

(** Lines 124-144: one parsed document. *)
Definition fold_doc (st : agg_state) (doc : parsed_doc) : agg_state :=
  let st1 := AggState (main_topics st) (attached_to_main st) (attached_to_stocks st)
               (<[d_stock_name doc := d_path doc]> (stock_to_path st)) in
  fold_left (fold_mention (d_stock_name doc)) (d_topics doc) st1.

(** An entry of [main_topics] as it is returned: ['stocks'] and
    ['attached'] are sorted lists. *)
Record topic_info := TopicInfo {
  stocks : list str;
  comment : str;
  attached : list str;
  stock_attached : gmap str (gset str)
}.

(** Lines 157-159: the union of the sets held by [stock_attached]. *)
Definition all_attached (sa : gmap str (gset str)) : gset str :=
  ⋃ (map_to_list sa).*2.

(** Lines 152-163: the body of the closing loop. *)
Definition finalize_topic (e : topic_acc) : topic_info :=
  TopicInfo (sorted_elements (a_stocks e)) (a_comment e)
    (if decide (a_stock_attached e = ∅) then []
     else sorted_elements (all_attached (a_stock_attached e)))
    (a_stock_attached e).

(** What [collect_all_topics] returns. *)
Record topics_result := TopicsResult {
  r_main_topics : gmap str topic_info;
  r_attached_to_main : gmap str (gset str);
  r_attached_to_stocks : gmap str (gset str);
  r_stock_to_path : gmap str str
}.

Definition finalize (st : agg_state) : topics_result :=
  TopicsResult (finalize_topic <$> main_topics st) (attached_to_main st)
    (attached_to_stocks st) (stock_to_path st).

(** The fold and the closing loop, on documents that are already parsed. *)
Definition aggregate_docs (docs : list parsed_doc) : topics_result :=
  finalize (fold_left fold_doc docs agg_init).

(** A file found by [stocks_dir.rglob("*.md")]: its path relative to
    [stocks_dir] (a path is kept as its POSIX string, what [as_posix()]
    gives), its stem, and its text, [None] when reading it raises. *)
Record md_file := MdFile {
  f_path : str;
  f_stem : str;
  f_content : option str
}.

(** Lines 121-148: the body of the loop over the files; a file that cannot
    be read is reported and skipped. *)
Definition collect_file (st : agg_state) (f : md_file) : agg_state :=
  match f_content f with
  | None => st
  | Some content =>
    let (stock_name, topics) := parse_markdown_file content (f_stem f) in
    fold_doc st (ParsedDoc stock_name (f_path f) topics)
  end.

(** [collect_all_topics]; [files] are the files in the order of discovery. *)
Definition collect_all_topics (files : list md_file) : topics_result :=
  finalize (fold_left collect_file files agg_init).

(** The documents of a corpus that parse, in the order of discovery. *)
Definition parse_file (f : md_file) : option parsed_doc :=
  match f_content f with
  | None => None
  | Some content =>
    let (stock_name, topics) := parse_markdown_file content (f_stem f) in
    Some (ParsedDoc stock_name (f_path f) topics)
  end.

Definition parse_corpus (files : list md_file) : list parsed_doc :=
  omap parse_file files.

(** ** The renderer *)

(** Lines 185-194: the line of one stock in a main-topic document. *)
Definition main_stock_line (topic_name : str) (stock_to_path : gmap str str)
    (stock : str) : str :=
  match stock_to_path !! stock with
  | Some stock_path =>
    let anchor := replace_char UNDERSCORE DASH (replace_char SP DASH topic_name) in
    let relative_path := lit "../../stocks/" ++ stock_path ++ lit "#" ++ anchor in
    lit "- [" ++ stock ++ lit "](" ++ relative_path ++ lit ")" ++ [NL]
  | None => lit "- " ++ stock ++ [NL]
  end.

(** [generate_main_topic_file]: the text written to [output_file]. *)
Definition generate_main_topic_file (topic_name : str) (topic_info : topic_info)
    (stock_to_path : gmap str str) : str :=
  let content := lit "# " ++ topic_name ++ [NL; NL] in
  let content :=
    match stocks topic_info with
    | [] => content
    | _ :: _ =>
      let content := content ++ lit "## 股票列表" ++ [NL; NL] in
      let content :=
        fold_left (λ content stock,
                     content ++ main_stock_line topic_name stock_to_path stock)
          (stocks topic_info) content in
      content ++ [NL]
    end in
  match attached topic_info with
  | [] => content
  | _ :: _ =>
    let content := content ++ lit "## 附带题材" ++ [NL; NL] in
    let content :=
      fold_left (λ content attached,
                   content ++ lit "- [" ++ attached ++ lit "](../附带题材/"
                     ++ attached ++ lit ".md)" ++ [NL])
        (attached topic_info) content in
    content ++ [NL]
  end.

(** Lines 230-235: the line of one stock in an attached-topic document. *)
Definition attached_stock_line (stock_to_path : gmap str str) (stock : str) : str :=
  match stock_to_path !! stock with
  | Some stock_path =>
    let relative_path := lit "../../stocks/" ++ stock_path ++ lit "#题材" in
    lit "- [" ++ stock ++ lit "](" ++ relative_path ++ lit ")" ++ [NL]
  | None => lit "- " ++ stock ++ [NL]
  end.

(** [generate_attached_topic_file]: the text written to [output_file]. *)
Definition generate_attached_topic_file (attached_name : str)
    (main_topics attached_stocks : gset str) (stock_to_path : gmap str str) : str :=
  let content := lit "# " ++ attached_name ++ [NL; NL] in
  let content :=
    if decide (main_topics = ∅) then content
    else
      let content := content ++ lit "## 相关主题材" ++ [NL; NL] in
      let content :=
        fold_left (λ content main_topic,
                     content ++ lit "- [" ++ main_topic ++ lit "](../主题材/"
                       ++ main_topic ++ lit ".md)" ++ [NL])
          (sorted_elements main_topics) content in
      content ++ [NL] in
  if decide (attached_stocks = ∅) then content
  else
    let content := content ++ lit "## 相关股票" ++ [NL; NL] in
    fold_left (λ content stock, content ++ attached_stock_line stock_to_path stock)
      (sorted_elements attached_stocks) content.

(** Lines 269-272 of [generate_topic_files]: the attached-topic documents,
    by attached name. *)
Definition attached_topic_files (r : topics_result) : gmap str str :=
  map_imap (λ attached_name main_topic_set,
              Some (generate_attached_topic_file attached_name main_topic_set
                      (default ∅ (r_attached_to_stocks r !! attached_name))
                      (r_stock_to_path r)))
    (r_attached_to_main r).

(** Lines 263-265 of [generate_topic_files]: the main-topic documents, by
    topic name. *)
Definition main_topic_files (r : topics_result) : gmap str str :=
  map_imap (λ topic_name topic_info,
              Some (generate_main_topic_file topic_name topic_info (r_stock_to_path r)))
    (r_main_topics r).

Definition doc1 : md_file :=
  MdFile (lit "a/StockA.md") (lit "StockA") (Some (lit "# StockA

## 题材
### Theme1
some note
- SubA")).
Definition doc2 : md_file :=
  MdFile (lit "b/StockB.md") (lit "StockB") (Some (lit "# StockB

## 题材
### Theme1
- SubA")).

(** ** Notions used to state and prove the properties *)

(** The three nested loops of lines 120-144 do one of three things at a
    time; the proofs follow them as one flat sequence of such events. *)
Inductive event :=
  | EDoc (stock_name path : list N)
  | EMention (stock_name main_topic mention_comment : list N)
  | EAttached (stock_name main_topic attached_topic : list N).

(** What one event does to the four dictionaries. *)
Definition apply_event (st : agg_state) (e : event) : agg_state :=
  match e with
  | EDoc s p =>
    AggState (main_topics st) (attached_to_main st) (attached_to_stocks st)
      (<[s := p]> (stock_to_path st))
  | EMention s t c =>
    let e := main_entry t st in
    set_main_entry t
      (TopicAcc (a_stocks e ∪ {[s]}) (merge_comment (a_comment e) c)
         (a_attached e) (a_stock_attached e)) st
  | EAttached s t a => fold_attached s t st a
  end.

(** The events of one item of [topics_dict.items()], of one document, and of
    the documents in their order. *)
Definition events_of_mention (s : list N) (item : list N * mention) : list event :=
  EMention s item.1 (m_comment item.2) :: map (EAttached s item.1) (m_attached item.2).

Definition events_of_doc (d : parsed_doc) : list event :=
  EDoc (d_stock_name d) (d_path d)
    :: flat_map (events_of_mention (d_stock_name d)) (d_topics d).

Definition events (docs : list parsed_doc) : list event :=
  flat_map events_of_doc docs.

(** [m.get(k, set())] *)
Definition get_set (k : list N) (m : gmap (list N) (gset (list N))) : gset (list N) :=
  default ∅ (m !! k).

(** The fields of [main_topics[t]], read without changing the dictionary. *)
Definition stocks_of (t : list N) (st : agg_state) : gset (list N) :=
  a_stocks (main_entry t st).

Definition comment_of (t : list N) (st : agg_state) : list N :=
  a_comment (main_entry t st).

Definition stock_attached_of (t : list N) (st : agg_state) : gmap (list N) (gset (list N)) :=
  a_stock_attached (main_entry t st).

(** [lines[0].strip()] of a piece of the split. *)
Definition section_title (section : list N) : list N :=
  strip (hd [] (split_lines section)).

(** The comments that reach the entry of [k], in the order of the fold. *)
Definition event_comment (k : list N) (e : event) : option (list N) :=
  match e with
  | EMention _ t c => if decide (t = k) then Some c else None
  | _ => None
  end.

(** The paths written for the stock [s], in the order of the fold. *)
Definition event_path (s : list N) (e : event) : option (list N) :=
  match e with
  | EDoc s' p => if decide (s' = s) then Some p else None
  | _ => None
  end.

(** The comments of the mentions of [t], in the order of the documents. *)
Definition doc_comments (t : list N) (d : parsed_doc) : list (list N) :=
  omap (λ item : list N * mention,
          if decide (item.1 = t) then Some (m_comment item.2) else None) (d_topics d).

Definition mention_comments (t : list N) (docs : list parsed_doc) : list (list N) :=
  flat_map (doc_comments t) docs.

(** The paths of the documents whose stock name is [s], in their order. *)
Definition doc_paths (s : list N) (docs : list parsed_doc) : list (list N) :=
  d_path <$> filter (λ d, d_stock_name d = s) docs.

(** The dictionaries when the loop over the documents ends. *)
Definition folded (docs : list parsed_doc) : agg_state :=
  fold_left fold_doc docs agg_init.

(** No attached name is the empty string. *)
Definition names_ok (l : list (list N)) : Prop := Forall (λ a, a ≠ []) l.

Definition dict_ok (d : list (list N * mention)) : Prop :=
  Forall (λ item, names_ok (m_attached item.2)) d.

(** The merge rule in the words of the specification: the non-empty
    comments in the order of the documents, each one kept unless the same
    text was merged before, joined by line breaks. *)
Fixpoint skip_exact_duplicates (seen cs : list (list N)) : list (list N) :=
  match cs with
  | [] => []
  | c :: r =>
    if existsb (str_eqb c) seen then skip_exact_duplicates seen r
    else c :: skip_exact_duplicates (c :: seen) r
  end.

Definition merged_comment_spec (cs : list (list N)) : list N :=
  join_lines (skip_exact_duplicates [] (filter (λ c, c ≠ []) cs)).

(** Small inputs on which the claims are tried. *)
Definition docs_ab : list parsed_doc :=
  [ParsedDoc (lit "S1") (lit "s1.md") [(lit "T", Mention (lit "AB") [])];
   ParsedDoc (lit "S2") (lit "s2.md") [(lit "T", Mention (lit "A") [])]].

Definition doc_a : parsed_doc :=
  ParsedDoc (lit "S1") (lit "s1.md") [(lit "T", Mention (lit "A") [lit "x"])].

Definition doc_b : parsed_doc :=
  ParsedDoc (lit "S2") (lit "s2.md") [(lit "T", Mention (lit "B") [lit "y"; lit "x"])].

(** The attached names of the mentions of [t], over all documents. *)
Definition doc_attached_sets (t : list N) (d : parsed_doc) : list (gset (list N)) :=
  omap (λ item : list N * mention,
          if decide (item.1 = t) then Some (list_to_set (m_attached item.2)) else None)
    (d_topics d).

(** Their union: what the specification calls attachedUnion. *)
Definition attached_union (t : list N) (docs : list parsed_doc) : gset (list N) :=
  ⋃ (flat_map (doc_attached_sets t) docs).

(** The link of one attached topic in a main-topic document, and of one
    main topic in an attached-topic document. *)
Definition attached_link_line (attached : list N) : list N :=
  lit "- [" ++ attached ++ lit "](../附带题材/" ++ attached ++ lit ".md)" ++ [NL].

Definition main_link_line (main_topic : list N) : list N :=
  lit "- [" ++ main_topic ++ lit "](../主题材/" ++ main_topic ++ lit ".md)" ++ [NL].

(** The topic name with every space and every underscore turned into a dash. *)
Definition anchor_of (topic_name : list N) : list N :=
  map (λ c : N, if (c =? SP) || (c =? UNDERSCORE) then DASH else c) topic_name.

(** A line at which [r'^#\s+(.+)$'] cannot start a match: it does not begin
    with ['#'], or a character that is not white space follows the ['#']. *)
Definition no_title_start (line : list N) : bool :=
  match line with
  | [] => true
  | c :: r =>
    if c =? HASH then
      match r with
      | [] => false
      | c2 :: _ => negb (is_space c2)
      end
    else true
  end.

(** The text of a document made of the complete lines [ls] and what
    follows them. *)
Definition lines_then (ls : list (list N)) (rest : list N) : list N :=
  concat (map (λ l, l ++ [NL]) ls) ++ rest.

(** The local variables after the lines [body] of a mention, and the
    mention stored for the topic [t] whose heading they follow. *)
Definition run_body (st : pstate) (body : list (list N)) : pstate :=
  (fold_left parse_line body (st, [])).1.

Definition block_mention (t : list N) (body : list (list N)) : mention :=
  let st := run_body (PState (Some t) [] [] false) body in
  Mention (strip (join_lines (topic_content st))) (attached_topics st).

(** The attached names that a run of list-item lines adds (lines 69-73). *)
Definition item_names (items : list (list N)) : list (list N) :=
  flat_map (λ line,
              match list_match line with
              | Some g => if nonempty (strip g) then [strip g] else []
              | None => []
              end) items.

(** A string that [strip()] leaves as it is. *)
Definition stripped (s : list N) : Prop := strip s = s.

(** A mention whose comment is stripped and whose attached names are
    stripped and not empty; a dictionary of such mentions under stripped,
    non-empty keys. *)
Definition mention_norm (m : mention) : Prop :=
  stripped (m_comment m) ∧ Forall (λ a, a ≠ [] ∧ stripped a) (m_attached m).

Definition dict_norm (d : list (list N * mention)) : Prop :=
  Forall (λ item, item.1 ≠ [] ∧ stripped item.1 ∧ mention_norm item.2) d.

(** * Properties *)

Global Arguments parse_line : simpl never.
Global Arguments parse_section : simpl never.
Global Arguments fold_mention : simpl never.
Global Arguments fold_attached : simpl never.
Global Arguments fold_doc : simpl never.
Global Arguments collect_file : simpl never.

Example lit_label : topics_label = [0x9898; 0x6750].
Proof. reflexivity. Qed.

(** ** Strings *)

Section strings.
Implicit Types a b c s sub : str.

Lemma str_eqb_eq a b : str_eqb a b = true ↔ a = b.
Proof.
  revert b; induction a as [|x a IH]; intros [|y b]; simpl; try (split; congruence).
  rewrite andb_true_iff, N.eqb_eq, IH. split; [intros [-> ->]|intros [= -> ->]]; done.
Qed.

Lemma str_eqb_refl a : str_eqb a a = true.
Proof. by apply str_eqb_eq. Qed.

Lemma str_eqb_neq a b : str_eqb a b = false ↔ a ≠ b.
Proof. rewrite <-str_eqb_eq. destruct (str_eqb a b); naive_solver. Qed.

Lemma nonempty_true s : nonempty s = true ↔ s ≠ [].
Proof. destruct s; simpl; split; congruence. Qed.

Lemma nonempty_false s : nonempty s = false ↔ s = [].
Proof. destruct s; simpl; split; congruence. Qed.

Lemma starts_with_spec sub s : starts_with sub s = true ↔ ∃ q, s = sub ++ q.
Proof.
  revert s; induction sub as [|x sub IH]; intros s; simpl.
  - split; eauto.
  - destruct s as [|y s]; [split; [done|intros [? [=]]]|].
    rewrite andb_true_iff, N.eqb_eq, IH. split.
    + intros [-> [q ->]]. by exists q.
    + intros [q [= -> ->]]. eauto.
Qed.

(** [in] is containment as a contiguous run, not equality. *)
Lemma str_in_spec sub s : str_in sub s = true ↔ ∃ p q, s = p ++ sub ++ q.
Proof.
  induction s as [|y s IH]; simpl.
  - rewrite orb_false_r, starts_with_spec. split.
    + intros [q ->]. by exists [], q.
    + intros (p & q & H). symmetry in H.
      apply app_eq_nil in H as [-> H]. apply app_eq_nil in H as [-> ->].
      by exists [].
  - rewrite orb_true_iff, starts_with_spec, IH. split.
    + intros [[q ->]|(p & q & ->)]; [by exists [], q|by exists (y :: p), q].
    + intros ([|z p] & q & H); simpl in H.
      * left. eauto.
      * injection H as -> ->. right. eauto.
Qed.

Lemma str_in_refl s : str_in s s = true.
Proof. apply str_in_spec. exists [], []. by rewrite app_nil_r. Qed.

Lemma str_leb_refl a : str_leb a a = true.
Proof.
  induction a as [|x a IH]; simpl; [done|].
  by rewrite N.eqb_refl, IH, orb_true_r.
Qed.

Global Instance str_le_refl : Reflexive str_le.
Proof. intros a. apply str_leb_refl. Qed.

Global Instance str_le_total : Total str_le.
Proof.
  intros a. unfold str_le. induction a as [|x a IH]; intros [|y b]; simpl; auto.
  destruct (N.ltb_spec x y), (N.ltb_spec y x), (N.eqb_spec x y), (N.eqb_spec y x);
    simpl; auto; lia.
Qed.

Global Instance str_le_trans : Transitive str_le.
Proof.
  intros a. unfold str_le. induction a as [|x a IH]; intros [|y b] [|z c]; simpl; auto;
    try discriminate.
  destruct (N.ltb_spec x y), (N.ltb_spec y z), (N.ltb_spec x z),
    (N.eqb_spec x y), (N.eqb_spec y z), (N.eqb_spec x z);
    simpl; auto; try lia; try discriminate. apply IH.
Qed.

Global Instance str_le_antisymm : AntiSymm (=) str_le.
Proof.
  intros a. unfold str_le. induction a as [|x a IH]; intros [|y b]; simpl; auto;
    try discriminate.
  destruct (N.ltb_spec x y), (N.ltb_spec y x), (N.eqb_spec x y), (N.eqb_spec y x);
    simpl; try lia; try discriminate.
  intros ??. subst. f_equal. by apply IH.
Qed.

Lemma sorted_elements_perm (S : gset str) : sorted_elements S ≡ₚ elements S.
Proof. apply merge_sort_Permutation. Qed.

Lemma elem_of_sorted_elements (S : gset str) x : x ∈ sorted_elements S ↔ x ∈ S.
Proof. by rewrite sorted_elements_perm, elem_of_elements. Qed.

Lemma sorted_elements_NoDup (S : gset str) : NoDup (sorted_elements S).
Proof. rewrite sorted_elements_perm. apply NoDup_elements. Qed.

Lemma sorted_elements_le (S : gset str) : StronglySorted str_le (sorted_elements S).
Proof. apply StronglySorted_merge_sort; apply _. Qed.

Lemma StronglySorted_le_lt (l : list str) :
  NoDup l → StronglySorted str_le l → StronglySorted str_lt l.
Proof.
  induction 2 as [|x l Hl IH Hx]; [constructor|].
  apply NoDup_cons in H as [Hnin Hnd]. constructor; [by apply IH|].
  rewrite Forall_forall in Hx |- *. intros y Hy. split; [by apply Hx|].
  intros ->. done.
Qed.

(** [sorted] of a set lists it in strictly increasing order. *)
Lemma sorted_elements_lt (S : gset str) : StronglySorted str_lt (sorted_elements S).
Proof.
  apply StronglySorted_le_lt; [apply sorted_elements_NoDup|apply sorted_elements_le].
Qed.

Lemma sorted_elements_nil (S : gset str) : sorted_elements S = [] ↔ S = ∅.
Proof.
  split.
  - intros H. apply set_eq. intros x.
    rewrite <-elem_of_sorted_elements, H. set_solver.
  - intros ->. done.
Qed.

Lemma replace_char_length old new s : length (replace_char old new s) = length s.
Proof. induction s; simpl; auto. Qed.

Lemma replace_char_map old new s :
  replace_char old new s = map (λ x : N, if x =? old then new else x) s.
Proof. induction s; simpl; congruence. Qed.
End strings.

(** ** The parser *)

Section parser.
Implicit Types (st : pstate) (d : list (list N * mention)) (line : list N).

Lemma parse_line_heading st d line g :
  topic_match line = Some g →
  parse_line (st, d) line = (PState (Some (strip g)) [] [] false, save_topic st d).
Proof. intros H. unfold parse_line. by rewrite H. Qed.

(** Without a current topic a line that is no heading changes nothing. *)
Lemma parse_line_no_topic st d line :
  has_topic st = false → topic_match line = None →
  parse_line (st, d) line = (st, d).
Proof. intros Ht Hm. unfold parse_line. by rewrite Hm, Ht. Qed.

Lemma parse_lines_no_topic st d pre :
  has_topic st = false → Forall (λ l, topic_match l = None) pre →
  fold_left parse_line pre (st, d) = (st, d).
Proof.
  intros Ht. induction 1 as [|l pre Hl _ IH]; simpl; [done|].
  by rewrite parse_line_no_topic.
Qed.

Lemma save_topic_no_topic st d : has_topic st = false → save_topic st d = d.
Proof.
  unfold has_topic, save_topic. destruct (current_topic st) as [t|]; [|done].
  by intros ->.
Qed.

Lemma parse_topics_section_no_heading body d :
  Forall (λ l, topic_match l = None) body → parse_topics_section body d = d.
Proof.
  intros H. unfold parse_topics_section.
  by rewrite parse_lines_no_topic.
Qed.

(** The three branches of lines 75-84. *)
Lemma parse_line_other st d line :
  has_topic st = true → topic_match line = None → list_match line = None →
  parse_line (st, d) line =
    if in_list st
    then (if str_eqb (strip line) [] then (set_in_list false st, d) else (st, d))
    else (append_content line st, d).
Proof.
  intros Ht Hm Hl. unfold parse_line. rewrite Hm, Ht, Hl.
  by destruct (in_list st), (str_eqb (strip line) []).
Qed.

(** In list mode, text lines are dropped until a blank line, a list item
    or a heading comes. *)
Lemma parse_lines_in_list st d notes :
  has_topic st = true → in_list st = true →
  Forall (λ l, topic_match l = None ∧ list_match l = None ∧ strip l ≠ []) notes →
  fold_left parse_line notes (st, d) = (st, d).
Proof.
  intros Ht Hi. induction 1 as [|l notes (Hm & Hl & Hb) _ IH]; simpl; [done|].
  rewrite parse_line_other, Hi by done.
  apply str_eqb_neq in Hb. by rewrite Hb.
Qed.

Lemma parse_section_not_topics d section :
  section_title section ≠ topics_label → parse_section d section = d.
Proof.
  intros H. unfold parse_section. destruct (negb _); [done|].
  apply str_eqb_neq in H. unfold section_title in H. by rewrite H.
Qed.

Lemma parse_section_no_heading d section :
  Forall (λ l, topic_match l = None) (tl (split_lines section)) →
  parse_section d section = d.
Proof.
  intros H. unfold parse_section. destruct (negb _); [done|].
  destruct (str_eqb _ _); [|done]. by apply parse_topics_section_no_heading.
Qed.

(** No mention comes out of a document none of whose pieces is both
    titled with the reserved label and holds a third-level heading. *)
Lemma parse_markdown_file_empty content stem :
  Forall (λ sec, section_title sec ≠ topics_label ∨
                 Forall (λ l, topic_match l = None) (tl (split_lines sec)))
    (re_split_sections content) →
  (parse_markdown_file content stem).2 = [].
Proof.
  unfold parse_markdown_file; simpl. generalize (re_split_sections content).
  intros secs. induction 1 as [|sec secs [H|H] _ IH]; simpl; [done|..].
  - by rewrite parse_section_not_topics.
  - by rewrite parse_section_no_heading.
Qed.
End parser.

(** C10. In the topics section, the lines before the first third-level
    heading are discarded: the section parses to what it parses to without
    them, so they reach no comment and no list of attached names. *)
Theorem lines_before_first_heading_discarded (pre rest : list (list N))
    (d : list (list N * mention)) :
  Forall (λ l, topic_match l = None) pre →
  parse_topics_section (pre ++ rest) d = parse_topics_section rest d.
Proof.
  intros H. unfold parse_topics_section.
  by rewrite fold_left_app, parse_lines_no_topic.
Qed.

Lemma lines_before_first_heading_discarded_witness :
  parse_topics_section ([lit "intro"; lit "- stray"; []] ++ [lit "### T"; lit "note"]) []
  = parse_topics_section [lit "### T"; lit "note"] [].
Proof.
  apply lines_before_first_heading_discarded.
  repeat constructor.
Defined.

(** C2 (as the code has it). A line of a mention body that is neither a
    third-level heading nor a list item is appended verbatim to the comment
    buffer exactly when the parser is not in list mode.  In list mode a
    blank line only leaves list mode and any other line is dropped; so a
    text line that directly follows a list item does not reach the
    comment. *)
Theorem comment_line_rule (st : pstate) (d : list (list N * mention)) (line : list N) :
  has_topic st = true → topic_match line = None → list_match line = None →
  (in_list st = false → parse_line (st, d) line = (append_content line st, d)) ∧
  (in_list st = true → strip line = [] →
     parse_line (st, d) line = (set_in_list false st, d)) ∧
  (in_list st = true → strip line ≠ [] → parse_line (st, d) line = (st, d)) ∧
  (∀ item, topic_match item = None → is_Some (list_match item) → strip line ≠ [] →
     parse_line (parse_line (st, d) item) line = parse_line (st, d) item).
Proof.
  intros Ht Hm Hl. repeat split.
  - intros Hi. by rewrite parse_line_other, Hi.
  - intros Hi Hb. rewrite parse_line_other, Hi by done.
    apply str_eqb_eq in Hb. by rewrite Hb.
  - intros Hi Hb. rewrite parse_line_other, Hi by done.
    apply str_eqb_neq in Hb. by rewrite Hb.
  - intros item Him [g Hil] Hb.
    assert (∃ st', parse_line (st, d) item = (st', d) ∧ has_topic st' = true
                   ∧ in_list st' = true) as (st' & -> & Ht' & Hi').
    { unfold parse_line. rewrite Him, Ht, Hil. eexists; split; [done|].
      split; [|done]. by destruct (nonempty (strip g)). }
    rewrite parse_line_other, Hi' by done.
    apply str_eqb_neq in Hb. by rewrite Hb.
Qed.

Lemma comment_line_rule_witness :
  let st := PState (Some (lit "T")) [lit "x"] [] true in
  parse_line (st, []) (lit "note") = (st, []).
Proof.
  intros st.
  apply (comment_line_rule st [] (lit "note") eq_refl eq_refl eq_refl);
    [reflexivity | vm_compute; discriminate].
Defined.

(** C2 as stated fails: the text line right after a list item is neither a
    heading, nor a list item, nor blank, and the comment stays empty. *)
Lemma comment_after_list_counterexample :
  topic_match (lit "note") = None ∧ list_match (lit "note") = None ∧
  strip (lit "note") ≠ [] ∧
  parse_topics_section [lit "### T"; lit "- x"; lit "note"] []
  = [(lit "T", Mention [] [lit "x"])].
Proof. vm_compute. repeat split; discriminate. Qed.

(** C8. What the code does on a document that has no second-level heading
    and starts with the reserved label: re.split finds no delimiter, the
    whole text is taken as a section, and a mention comes out. *)
Lemma topics_without_second_level_heading :
  let content := lit "题材
### T" in
  re_split_sections content = [content] ∧
  (parse_markdown_file content (lit "x")).2 = [(lit "T", Mention [] [])].
Proof. vm_compute. split; reflexivity. Qed.

(** ** The fold of the aggregator *)

Section fold.
Implicit Types (st : agg_state) (s t k a c x : list N) (evs : list event).
Implicit Types (m : gmap (list N) (gset (list N))).

Lemma fold_attached_events s t l st :
  fold_left (fold_attached s t) l st
  = fold_left apply_event (map (EAttached s t) l) st.
Proof. revert st; induction l as [|a l IH]; intros st; simpl; [done|]. apply IH. Qed.

Lemma fold_mention_events s st item :
  fold_mention s st item = fold_left apply_event (events_of_mention s item) st.
Proof.
  destruct item as [t info]. unfold fold_mention, events_of_mention.
  by rewrite fold_attached_events.
Qed.

Lemma fold_mentions_events s items st :
  fold_left (fold_mention s) items st
  = fold_left apply_event (flat_map (events_of_mention s) items) st.
Proof.
  revert st; induction items as [|item items IH]; intros st; [done|].
  cbn [fold_left flat_map]. by rewrite fold_left_app, IH, fold_mention_events.
Qed.

Lemma fold_doc_events st d :
  fold_doc st d = fold_left apply_event (events_of_doc d) st.
Proof. unfold fold_doc, events_of_doc. by rewrite fold_mentions_events. Qed.

Lemma fold_docs_events docs st :
  fold_left fold_doc docs st = fold_left apply_event (events docs) st.
Proof.
  revert st; induction docs as [|d docs IH]; intros st; [done|].
  unfold events. cbn [fold_left flat_map].
  by rewrite fold_left_app, IH, fold_doc_events.
Qed.

(** *** Sets kept in a [defaultdict(set)] *)

Lemma get_set_add k x m k' :
  get_set k' (set_add k x m)
  = if decide (k = k') then get_set k m ∪ {[x]} else get_set k' m.
Proof.
  unfold get_set, set_add. case_decide as H.
  - subst. by rewrite lookup_insert_eq.
  - by rewrite lookup_insert_ne.
Qed.

Lemma dom_set_add k x m : dom (set_add k x m) = {[k]} ∪ dom m.
Proof. unfold set_add. by rewrite dom_insert_L. Qed.

Lemma get_set_dom k m x : x ∈ get_set k m → k ∈ dom m.
Proof.
  unfold get_set. rewrite elem_of_dom. destruct (m !! k); simpl; [eauto|set_solver].
Qed.

(** *** One event *)

Lemma main_entry_insert t (e : topic_acc) (mt : gmap (list N) topic_acc) a2m a2s p k :
  main_entry k (AggState (<[t := e]> mt) a2m a2s p)
  = if decide (t = k) then e else default topic_acc_default (mt !! k).
Proof.
  unfold main_entry; simpl. case_decide as H.
  - subst. by rewrite lookup_insert_eq.
  - by rewrite lookup_insert_ne.
Qed.

Lemma stocks_of_event k st e :
  stocks_of k (apply_event st e)
  = match e with
    | EMention s t _ => if decide (t = k) then stocks_of k st ∪ {[s]} else stocks_of k st
    | _ => stocks_of k st
    end.
Proof.
  destruct e as [s p|s t c|s t a]; simpl; [done|..].
  - unfold stocks_of, set_main_entry. rewrite main_entry_insert.
    case_decide; by subst.
  - unfold fold_attached. destruct (nonempty a); [|done].
    unfold stocks_of. rewrite main_entry_insert.
    case_decide; by subst.
Qed.

Lemma comment_of_event k st e :
  comment_of k (apply_event st e)
  = match e with
    | EMention s t c =>
      if decide (t = k) then merge_comment (comment_of k st) c else comment_of k st
    | _ => comment_of k st
    end.
Proof.
  destruct e as [s p|s t c|s t a]; simpl; [done|..].
  - unfold comment_of, set_main_entry. rewrite main_entry_insert.
    case_decide; by subst.
  - unfold fold_attached. destruct (nonempty a); [|done].
    unfold comment_of. rewrite main_entry_insert.
    case_decide; by subst.
Qed.

Lemma stock_attached_of_event k st e :
  stock_attached_of k (apply_event st e)
  = match e with
    | EAttached s t a =>
      if decide (t = k ∧ a ≠ []) then set_add s a (stock_attached_of k st)
      else stock_attached_of k st
    | _ => stock_attached_of k st
    end.
Proof.
  destruct e as [s p|s t c|s t a]; simpl; [done|..].
  - unfold stock_attached_of, set_main_entry. rewrite main_entry_insert.
    case_decide; by subst.
  - unfold fold_attached, stock_attached_of. destruct a as [|a0 a]; cbn [nonempty].
    { by rewrite decide_False by naive_solver. }
    rewrite main_entry_insert.
    destruct (decide (t = k)) as [->|Hne].
    + by rewrite decide_True by done.
    + by rewrite decide_False by naive_solver.
Qed.

Lemma dom_main_event st e :
  dom (main_topics (apply_event st e))
  = match e with
    | EDoc _ _ => dom (main_topics st)
    | EMention _ t _ => {[t]} ∪ dom (main_topics st)
    | EAttached _ t a =>
      if decide (a ≠ []) then {[t]} ∪ dom (main_topics st) else dom (main_topics st)
    end.
Proof.
  destruct e as [s p|s t c|s t a]; simpl; [done|..].
  - by rewrite dom_insert_L.
  - unfold fold_attached. destruct a as [|a0 a]; cbn [nonempty].
    { by rewrite decide_False by naive_solver. }
    rewrite decide_True by done. cbn [main_topics]. by rewrite dom_insert_L.
Qed.

Lemma attached_to_main_event st e :
  attached_to_main (apply_event st e)
  = match e with
    | EAttached s t a =>
      if decide (a ≠ []) then set_add a t (attached_to_main st) else attached_to_main st
    | _ => attached_to_main st
    end.
Proof.
  destruct e as [s p|s t c|s t a]; simpl; [done..|].
  unfold fold_attached. destruct a as [|a0 a]; cbn [nonempty].
  - by rewrite decide_False by naive_solver.
  - by rewrite decide_True by done.
Qed.

Lemma attached_to_stocks_event st e :
  attached_to_stocks (apply_event st e)
  = match e with
    | EAttached s t a =>
      if decide (a ≠ []) then set_add a s (attached_to_stocks st)
      else attached_to_stocks st
    | _ => attached_to_stocks st
    end.
Proof.
  destruct e as [s p|s t c|s t a]; simpl; [done..|].
  unfold fold_attached. destruct a as [|a0 a]; cbn [nonempty].
  - by rewrite decide_False by naive_solver.
  - by rewrite decide_True by done.
Qed.

Lemma stock_to_path_event st e :
  stock_to_path (apply_event st e)
  = match e with
    | EDoc s p => <[s := p]> (stock_to_path st)
    | _ => stock_to_path st
    end.
Proof.
  destruct e as [s p|s t c|s t a]; simpl; [done..|].
  unfold fold_attached. by destruct (nonempty a).
Qed.
End fold.

Section fold_events.
Implicit Types (st : agg_state) (s t k a c x : list N) (evs : list event).

Lemma stocks_of_fold k s evs st :
  s ∈ stocks_of k (fold_left apply_event evs st)
  ↔ s ∈ stocks_of k st ∨ ∃ c, EMention s k c ∈ evs.
Proof.
  revert st; induction evs as [|e evs IH]; intros st; cbn [fold_left].
  - split; [auto|]. intros [?|[c H]]; [done|]. by apply elem_of_nil in H.
  - rewrite IH, stocks_of_event. setoid_rewrite elem_of_cons.
    destruct e as [s' p|s' t c'|s' t a]; [naive_solver| |naive_solver].
    case_decide; [subst; rewrite elem_of_union, elem_of_singleton|]; naive_solver.
Qed.

Lemma stock_attached_of_fold k s x evs st :
  x ∈ get_set s (stock_attached_of k (fold_left apply_event evs st))
  ↔ x ∈ get_set s (stock_attached_of k st) ∨ (EAttached s k x ∈ evs ∧ x ≠ []).
Proof.
  revert st; induction evs as [|e evs IH]; intros st; cbn [fold_left].
  - split; [auto|]. intros [?|[H _]]; [done|]. by apply elem_of_nil in H.
  - rewrite IH, stock_attached_of_event. setoid_rewrite elem_of_cons.
    destruct e as [s' p|s' t c'|s' t a]; [naive_solver..|].
    case_decide as Hd; [|naive_solver]. destruct Hd as [-> Ha].
    rewrite get_set_add. case_decide; [subst; rewrite elem_of_union, elem_of_singleton|];
      naive_solver.
Qed.

Lemma dom_main_fold k evs st :
  k ∈ dom (main_topics (fold_left apply_event evs st))
  ↔ k ∈ dom (main_topics st) ∨ (∃ s c, EMention s k c ∈ evs)
    ∨ (∃ s a, EAttached s k a ∈ evs ∧ a ≠ []).
Proof.
  revert st; induction evs as [|e evs IH]; intros st; cbn [fold_left].
  - split; [auto|]. intros [?|[(?&?&H)|(?&?&H&_)]]; [done|..]; by apply elem_of_nil in H.
  - rewrite IH, dom_main_event. setoid_rewrite elem_of_cons.
    destruct e as [s' p|s' t c'|s' t a]; [naive_solver|..].
    + rewrite elem_of_union, elem_of_singleton. naive_solver.
    + case_decide; [rewrite elem_of_union, elem_of_singleton|]; naive_solver.
Qed.

Lemma attached_to_main_fold a t evs st :
  t ∈ get_set a (attached_to_main (fold_left apply_event evs st))
  ↔ t ∈ get_set a (attached_to_main st) ∨ ((∃ s, EAttached s t a ∈ evs) ∧ a ≠ []).
Proof.
  revert st; induction evs as [|e evs IH]; intros st; cbn [fold_left].
  - split; [auto|]. intros [?|[[? H] _]]; [done|]. by apply elem_of_nil in H.
  - rewrite IH, attached_to_main_event. setoid_rewrite elem_of_cons.
    destruct e as [s' p|s' t' c'|s' t' a']; [naive_solver..|].
    case_decide as Hd; [|naive_solver].
    rewrite get_set_add. case_decide; [subst; rewrite elem_of_union, elem_of_singleton|];
      naive_solver.
Qed.

Lemma attached_to_stocks_fold a s evs st :
  s ∈ get_set a (attached_to_stocks (fold_left apply_event evs st))
  ↔ s ∈ get_set a (attached_to_stocks st) ∨ ((∃ t, EAttached s t a ∈ evs) ∧ a ≠ []).
Proof.
  revert st; induction evs as [|e evs IH]; intros st; cbn [fold_left].
  - split; [auto|]. intros [?|[[? H] _]]; [done|]. by apply elem_of_nil in H.
  - rewrite IH, attached_to_stocks_event. setoid_rewrite elem_of_cons.
    destruct e as [s' p|s' t' c'|s' t' a']; [naive_solver..|].
    case_decide as Hd; [|naive_solver].
    rewrite get_set_add. case_decide; [subst; rewrite elem_of_union, elem_of_singleton|];
      naive_solver.
Qed.

Lemma dom_attached_to_main_fold a evs st :
  a ∈ dom (attached_to_main (fold_left apply_event evs st))
  ↔ a ∈ dom (attached_to_main st) ∨ ((∃ s t, EAttached s t a ∈ evs) ∧ a ≠ []).
Proof.
  revert st; induction evs as [|e evs IH]; intros st; cbn [fold_left].
  - split; [auto|]. intros [?|[(?&?&H) _]]; [done|]. by apply elem_of_nil in H.
  - rewrite IH, attached_to_main_event. setoid_rewrite elem_of_cons.
    destruct e as [s' p|s' t' c'|s' t' a']; [naive_solver..|].
    case_decide as Hd; [|naive_solver].
    rewrite dom_set_add, elem_of_union, elem_of_singleton. naive_solver.
Qed.

Lemma dom_attached_to_stocks_fold a evs st :
  a ∈ dom (attached_to_stocks (fold_left apply_event evs st))
  ↔ a ∈ dom (attached_to_stocks st) ∨ ((∃ s t, EAttached s t a ∈ evs) ∧ a ≠ []).
Proof.
  revert st; induction evs as [|e evs IH]; intros st; cbn [fold_left].
  - split; [auto|]. intros [?|[(?&?&H) _]]; [done|]. by apply elem_of_nil in H.
  - rewrite IH, attached_to_stocks_event. setoid_rewrite elem_of_cons.
    destruct e as [s' p|s' t' c'|s' t' a']; [naive_solver..|].
    case_decide as Hd; [|naive_solver].
    rewrite dom_set_add, elem_of_union, elem_of_singleton. naive_solver.
Qed.

Lemma comment_of_fold k evs st :
  comment_of k (fold_left apply_event evs st)
  = fold_left merge_comment (omap (event_comment k) evs) (comment_of k st).
Proof.
  revert st; induction evs as [|e evs IH]; intros st; cbn [fold_left]; [done|].
  rewrite IH, comment_of_event.
  destruct e as [s' p|s' t c'|s' t a]; cbn [omap list_omap event_comment]; [done| |done].
  by case_decide.
Qed.

Lemma stock_to_path_fold s evs st :
  stock_to_path (fold_left apply_event evs st) !! s
  = match last (omap (event_path s) evs) with
    | Some p => Some p
    | None => stock_to_path st !! s
    end.
Proof.
  revert st; induction evs as [|e evs IH]; intros st; cbn [fold_left]; [done|].
  rewrite IH, stock_to_path_event.
  destruct e as [s' p|s' t c'|s' t a]; cbn [omap list_omap event_path]; [|done..].
  case_decide as Hd.
  - subst. rewrite last_cons. destruct (last _); [done|]. by rewrite lookup_insert_eq.
  - by rewrite lookup_insert_ne.
Qed.
End fold_events.

(** ** From events back to documents *)

Section events_docs.
Implicit Types (s t k a c x : list N) (d : parsed_doc) (docs : list parsed_doc).

Lemma elem_of_flat_map {A B} (f : A → list B) (l : list A) (y : B) :
  y ∈ flat_map f l ↔ ∃ z, z ∈ l ∧ y ∈ f z.
Proof.
  rewrite list_elem_of_In, in_flat_map. setoid_rewrite list_elem_of_In. done.
Qed.

Lemma elem_of_events_mention s t c docs :
  EMention s t c ∈ events docs
  ↔ ∃ d m, d ∈ docs ∧ d_stock_name d = s ∧ (t, m) ∈ d_topics d ∧ m_comment m = c.
Proof.
  unfold events. rewrite elem_of_flat_map. split.
  - intros (d & Hd & He). unfold events_of_doc in He.
    apply elem_of_cons in He as [?|He]; [done|].
    apply elem_of_flat_map in He as ([t' m] & Hi & He).
    unfold events_of_mention in He; simpl in He.
    apply elem_of_cons in He as [He|He].
    + injection He as -> -> ->. by exists d, m.
    + apply list_elem_of_fmap in He as (? & ? & ?). done.
  - intros (d & m & Hd & <- & Hi & <-). exists d. split; [done|].
    unfold events_of_doc. apply elem_of_cons; right.
    apply elem_of_flat_map. exists (t, m). split; [done|].
    unfold events_of_mention. simpl. by left.
Qed.

Lemma elem_of_events_attached s t a docs :
  EAttached s t a ∈ events docs
  ↔ ∃ d m, d ∈ docs ∧ d_stock_name d = s ∧ (t, m) ∈ d_topics d ∧ a ∈ m_attached m.
Proof.
  unfold events. rewrite elem_of_flat_map. split.
  - intros (d & Hd & He). unfold events_of_doc in He.
    apply elem_of_cons in He as [?|He]; [done|].
    apply elem_of_flat_map in He as ([t' m] & Hi & He).
    unfold events_of_mention in He; simpl in He.
    apply elem_of_cons in He as [?|He]; [done|].
    apply list_elem_of_fmap in He as (a' & He & Ha).
    injection He as -> -> ->. by exists d, m.
  - intros (d & m & Hd & <- & Hi & Ha). exists d. split; [done|].
    unfold events_of_doc. apply elem_of_cons; right.
    apply elem_of_flat_map. exists (t, m). split; [done|].
    unfold events_of_mention. simpl. apply elem_of_cons; right.
    apply list_elem_of_fmap. by exists a.
Qed.

Lemma event_comments_attached t s k l :
  omap (event_comment t) (map (EAttached s k) l) = [].
Proof. induction l; simpl; auto. Qed.

Lemma event_comments_doc t d :
  omap (event_comment t) (events_of_doc d) = doc_comments t d.
Proof.
  unfold events_of_doc, doc_comments. cbn [omap list_omap event_comment].
  induction (d_topics d) as [|[k m] items IH]; [done|].
  cbn [flat_map]. rewrite omap_app, IH. unfold events_of_mention.
  cbn [omap list_omap event_comment fst snd]. rewrite event_comments_attached.
  by case_decide.
Qed.

Lemma event_comments_docs t docs :
  omap (event_comment t) (events docs) = mention_comments t docs.
Proof.
  unfold events, mention_comments.
  induction docs as [|d docs IH]; [done|].
  cbn [flat_map]. by rewrite omap_app, event_comments_doc, IH.
Qed.

Lemma event_paths_mention s s' item :
  omap (event_path s) (events_of_mention s' item) = [].
Proof.
  unfold events_of_mention. cbn [omap list_omap event_path].
  induction (m_attached item.2); simpl; auto.
Qed.

Lemma event_paths_docs s docs :
  omap (event_path s) (events docs) = doc_paths s docs.
Proof.
  unfold events, doc_paths. induction docs as [|d docs IH]; [done|].
  cbn [flat_map]. rewrite omap_app, IH, filter_cons.
  assert (omap (event_path s) (events_of_doc d)
          = if decide (d_stock_name d = s) then [d_path d] else []) as ->.
  { unfold events_of_doc. cbn [omap list_omap event_path].
    assert (omap (event_path s)
              (flat_map (events_of_mention (d_stock_name d)) (d_topics d)) = []) as ->.
    { induction (d_topics d) as [|item items IHi]; [done|].
      cbn [flat_map]. by rewrite omap_app, event_paths_mention, IHi. }
    by case_decide. }
  by case_decide.
Qed.

Lemma mention_comments_perm t docs docs' :
  docs ≡ₚ docs' → mention_comments t docs ≡ₚ mention_comments t docs'.
Proof. intros H. unfold mention_comments. by apply Permutation_flat_map. Qed.

Lemma doc_paths_perm s docs docs' :
  docs ≡ₚ docs' → doc_paths s docs ≡ₚ doc_paths s docs'.
Proof. intros H. unfold doc_paths. by rewrite H. Qed.
End events_docs.

(** ** What the aggregator returns *)

Section aggregate.
Implicit Types (s t k a c x : list N) (d : parsed_doc) (docs : list parsed_doc).

Lemma folded_events docs : folded docs = fold_left apply_event (events docs) agg_init.
Proof. apply fold_docs_events. Qed.

Lemma get_set_empty k : get_set k ∅ = ∅.
Proof. unfold get_set. by rewrite lookup_empty. Qed.

Lemma main_entry_init t : main_entry t agg_init = topic_acc_default.
Proof. unfold main_entry; simpl. by rewrite lookup_empty. Qed.

Lemma sorted_elements_empty : sorted_elements ∅ = [].
Proof. unfold sorted_elements. by rewrite elements_empty. Qed.

Lemma elem_of_all_attached x (sa : gmap (list N) (gset (list N))) :
  x ∈ all_attached sa ↔ ∃ s, x ∈ get_set s sa.
Proof.
  unfold all_attached, get_set. rewrite elem_of_union_list. split.
  - intros (X & HX & Hx). apply list_elem_of_fmap in HX as ([s X'] & -> & HX).
    apply elem_of_map_to_list in HX. exists s. by rewrite HX.
  - intros (s & Hx). destruct (sa !! s) as [X|] eqn:E; simpl in Hx; [|set_solver].
    exists X. split; [|done]. apply list_elem_of_fmap. exists (s, X).
    split; [done|]. by apply elem_of_map_to_list.
Qed.

Lemma attached_finalize (e : topic_acc) :
  attached (finalize_topic e) = sorted_elements (all_attached (a_stock_attached e)).
Proof.
  unfold finalize_topic; simpl. case_decide as H; [|done].
  rewrite H. unfold all_attached. rewrite map_to_list_empty. simpl.
  by rewrite sorted_elements_empty.
Qed.

Lemma aggregate_main_view docs t info :
  r_main_topics (aggregate_docs docs) !! t = Some info →
  stocks info = sorted_elements (stocks_of t (folded docs)) ∧
  comment info = comment_of t (folded docs) ∧
  attached info = sorted_elements (all_attached (stock_attached_of t (folded docs))) ∧
  stock_attached info = stock_attached_of t (folded docs).
Proof.
  unfold aggregate_docs, finalize. fold (folded docs). simpl.
  rewrite lookup_fmap. intros H.
  apply fmap_Some in H as (e & He & ->).
  unfold stocks_of, comment_of, stock_attached_of, main_entry. rewrite He. simpl.
  repeat split. apply attached_finalize.
Qed.

Lemma stocks_of_docs docs t s :
  s ∈ stocks_of t (folded docs)
  ↔ ∃ d m, d ∈ docs ∧ d_stock_name d = s ∧ (t, m) ∈ d_topics d.
Proof.
  rewrite folded_events, stocks_of_fold. unfold stocks_of.
  rewrite main_entry_init; simpl. setoid_rewrite elem_of_events_mention.
  split; [intros [?|(c & d & m & ?)]; [set_solver|naive_solver]|].
  intros (d & m & ?). right. exists (m_comment m), d, m. naive_solver.
Qed.

Lemma stock_attached_of_docs docs t s x :
  x ∈ get_set s (stock_attached_of t (folded docs))
  ↔ x ≠ [] ∧ ∃ d m, d ∈ docs ∧ d_stock_name d = s ∧ (t, m) ∈ d_topics d
                    ∧ x ∈ m_attached m.
Proof.
  rewrite folded_events, stock_attached_of_fold. unfold stock_attached_of.
  rewrite main_entry_init; simpl. rewrite get_set_empty.
  rewrite elem_of_events_attached. set_solver.
Qed.

Lemma all_attached_docs docs t x :
  x ∈ all_attached (stock_attached_of t (folded docs))
  ↔ x ≠ [] ∧ ∃ d m, d ∈ docs ∧ (t, m) ∈ d_topics d ∧ x ∈ m_attached m.
Proof.
  rewrite elem_of_all_attached. setoid_rewrite stock_attached_of_docs.
  naive_solver.
Qed.

Lemma comment_of_docs docs t :
  comment_of t (folded docs) = fold_left merge_comment (mention_comments t docs) [].
Proof.
  rewrite folded_events, comment_of_fold, event_comments_docs.
  unfold comment_of. by rewrite main_entry_init.
Qed.

Lemma main_domain_docs docs t :
  t ∈ dom (main_topics (folded docs)) ↔ ∃ d m, d ∈ docs ∧ (t, m) ∈ d_topics d.
Proof.
  rewrite folded_events, dom_main_fold. simpl. rewrite dom_empty_L.
  setoid_rewrite elem_of_events_mention. setoid_rewrite elem_of_events_attached.
  split; [intros [?|[?|?]]; [set_solver|naive_solver..]|].
  intros (d & m & ?). right; left. exists (d_stock_name d), (m_comment m), d, m.
  naive_solver.
Qed.

Lemma attached_to_main_docs docs a t :
  t ∈ get_set a (attached_to_main (folded docs))
  ↔ a ≠ [] ∧ ∃ d m, d ∈ docs ∧ (t, m) ∈ d_topics d ∧ a ∈ m_attached m.
Proof.
  rewrite folded_events, attached_to_main_fold. simpl. rewrite get_set_empty.
  setoid_rewrite elem_of_events_attached.
  split; [intros [?|?]; [set_solver|naive_solver]|].
  intros (Ha & d & m & ?). right. split; [|done]. exists (d_stock_name d), d, m.
  naive_solver.
Qed.

Lemma attached_to_stocks_docs docs a s :
  s ∈ get_set a (attached_to_stocks (folded docs))
  ↔ a ≠ [] ∧ ∃ d t m, d ∈ docs ∧ d_stock_name d = s ∧ (t, m) ∈ d_topics d
                      ∧ a ∈ m_attached m.
Proof.
  rewrite folded_events, attached_to_stocks_fold. simpl. rewrite get_set_empty.
  setoid_rewrite elem_of_events_attached.
  split; [intros [?|?]; [set_solver|naive_solver]|]. naive_solver.
Qed.

Lemma dom_attached_docs docs a :
  a ∈ dom (attached_to_main (folded docs))
  ↔ a ≠ [] ∧ ∃ d t m, d ∈ docs ∧ (t, m) ∈ d_topics d ∧ a ∈ m_attached m.
Proof.
  rewrite folded_events, dom_attached_to_main_fold. simpl. rewrite dom_empty_L.
  setoid_rewrite elem_of_events_attached.
  split; [intros [?|?]; [set_solver|naive_solver]|].
  intros (Ha & d & t & m & ?). right. split; [|done]. exists (d_stock_name d), t, d, m.
  naive_solver.
Qed.

Lemma dom_attached_same docs :
  dom (attached_to_main (folded docs)) = dom (attached_to_stocks (folded docs)).
Proof.
  apply set_eq. intros a. rewrite !folded_events.
  by rewrite dom_attached_to_main_fold, dom_attached_to_stocks_fold.
Qed.

Lemma stock_to_path_docs docs s :
  stock_to_path (folded docs) !! s = last (doc_paths s docs).
Proof.
  rewrite folded_events, stock_to_path_fold, event_paths_docs. simpl.
  rewrite lookup_empty. by destruct (last _).
Qed.
End aggregate.

(** ** The order of the documents *)

Section order.
Implicit Types (s t k a c x : list N) (d : parsed_doc) (docs : list parsed_doc).

Lemma gmap_sets_eq (m1 m2 : gmap (list N) (gset (list N))) :
  dom m1 = dom m2 → (∀ k x, x ∈ get_set k m1 ↔ x ∈ get_set k m2) → m1 = m2.
Proof.
  intros Hd Hx. apply map_eq. intros k.
  specialize (Hx k). unfold get_set in Hx.
  assert (is_Some (m1 !! k) ↔ is_Some (m2 !! k)) as Hs.
  { by rewrite <-!elem_of_dom, Hd. }
  destruct (m1 !! k) as [X|] eqn:E1, (m2 !! k) as [Y|] eqn:E2; simpl in Hx.
  - f_equal. by apply set_eq.
  - destruct Hs as [Hs _]. destruct Hs; [eauto|done].
  - destruct Hs as [_ Hs]. destruct Hs; [eauto|done].
  - done.
Qed.

Lemma dom_stock_attached_of_fold k s evs st :
  s ∈ dom (stock_attached_of k (fold_left apply_event evs st))
  ↔ s ∈ dom (stock_attached_of k st) ∨ ∃ x, EAttached s k x ∈ evs ∧ x ≠ [].
Proof.
  revert st; induction evs as [|e evs IH]; intros st; cbn [fold_left].
  - split; [auto|]. intros [?|(? & H & _)]; [done|]. by apply elem_of_nil in H.
  - rewrite IH, stock_attached_of_event. setoid_rewrite elem_of_cons.
    destruct e as [s' p|s' t c'|s' t a]; [naive_solver..|].
    case_decide as Hd; [|naive_solver]. destruct Hd as [-> Ha].
    rewrite dom_set_add, elem_of_union, elem_of_singleton. naive_solver.
Qed.

Lemma dom_stock_attached_of_docs docs t s :
  s ∈ dom (stock_attached_of t (folded docs))
  ↔ ∃ x, x ≠ [] ∧ ∃ d m, d ∈ docs ∧ d_stock_name d = s ∧ (t, m) ∈ d_topics d
                         ∧ x ∈ m_attached m.
Proof.
  rewrite folded_events, dom_stock_attached_of_fold. unfold stock_attached_of.
  rewrite main_entry_init; simpl. rewrite dom_empty_L.
  setoid_rewrite elem_of_events_attached.
  split; [intros [?|?]; [set_solver|naive_solver]|]. naive_solver.
Qed.

Context (docs docs' : list parsed_doc) (Hperm : docs ≡ₚ docs').

Local Lemma perm_elem d : d ∈ docs ↔ d ∈ docs'.
Proof. by rewrite Hperm. Qed.

Lemma main_domain_perm :
  dom (main_topics (folded docs)) = dom (main_topics (folded docs')).
Proof.
  apply set_eq. intros t. rewrite !main_domain_docs.
  pose proof perm_elem. naive_solver.
Qed.

Lemma stocks_of_perm t : stocks_of t (folded docs) = stocks_of t (folded docs').
Proof.
  apply set_eq. intros s. rewrite !stocks_of_docs.
  pose proof perm_elem. naive_solver.
Qed.

Lemma stock_attached_of_perm t :
  stock_attached_of t (folded docs) = stock_attached_of t (folded docs').
Proof.
  pose proof perm_elem. apply gmap_sets_eq.
  - apply set_eq. intros s. rewrite !dom_stock_attached_of_docs. naive_solver.
  - intros s x. rewrite !stock_attached_of_docs. naive_solver.
Qed.

Lemma attached_to_main_perm :
  attached_to_main (folded docs) = attached_to_main (folded docs').
Proof.
  pose proof perm_elem. apply gmap_sets_eq.
  - apply set_eq. intros s. rewrite !dom_attached_docs. naive_solver.
  - intros s x. rewrite !attached_to_main_docs. naive_solver.
Qed.

Lemma attached_to_stocks_perm :
  attached_to_stocks (folded docs) = attached_to_stocks (folded docs').
Proof.
  pose proof perm_elem. apply gmap_sets_eq.
  - rewrite <-!dom_attached_same. apply set_eq. intros s.
    rewrite !dom_attached_docs. naive_solver.
  - intros s x. rewrite !attached_to_stocks_docs. naive_solver.
Qed.

Lemma perm_at_most_one {A} (l l' : list A) : l ≡ₚ l' → (length l ≤ 1)%nat → l = l'.
Proof.
  intros Hp Hl. destruct l as [|y [|z l]]; simpl in Hl; [| |lia].
  - by apply Permutation_nil in Hp.
  - by apply Permutation_singleton_l in Hp.
Qed.

Lemma stock_to_path_perm s :
  (length (doc_paths s docs) ≤ 1)%nat →
  stock_to_path (folded docs) !! s = stock_to_path (folded docs') !! s.
Proof.
  intros Hl. rewrite !stock_to_path_docs. f_equal.
  apply perm_at_most_one; [|done]. by apply doc_paths_perm.
Qed.

Lemma merge_comment_empty cur : merge_comment cur [] = cur.
Proof. done. Qed.

Lemma merge_comments_filter cs cur :
  fold_left merge_comment cs cur
  = fold_left merge_comment (filter (λ c, c ≠ []) cs) cur.
Proof.
  revert cur; induction cs as [|c cs IH]; intros cur; [done|].
  rewrite filter_cons. destruct c as [|c0 c].
  - rewrite decide_False by naive_solver. cbn [fold_left]. by rewrite merge_comment_empty.
  - rewrite decide_True by done. cbn [fold_left]. apply IH.
Qed.

Lemma comment_of_perm t :
  (length (filter (λ c, c ≠ []) (mention_comments t docs)) ≤ 1)%nat →
  comment_of t (folded docs) = comment_of t (folded docs').
Proof.
  intros Hl. rewrite !comment_of_docs.
  rewrite (merge_comments_filter (mention_comments t docs)).
  rewrite (merge_comments_filter (mention_comments t docs')).
  f_equal. apply perm_at_most_one; [|done].
  apply filter_Permutation. by apply mention_comments_perm.
Qed.

Lemma main_lookup_perm {B} (f : topic_info → B) t :
  (∀ e, main_topics (folded docs) !! t = Some e →
        ∀ e', main_topics (folded docs') !! t = Some e' →
              f (finalize_topic e) = f (finalize_topic e')) →
  f <$> r_main_topics (aggregate_docs docs) !! t
  = f <$> r_main_topics (aggregate_docs docs') !! t.
Proof.
  intros Hf. unfold aggregate_docs, finalize. fold (folded docs) (folded docs'). simpl.
  rewrite !lookup_fmap.
  assert (is_Some (main_topics (folded docs) !! t)
          ↔ is_Some (main_topics (folded docs') !! t)) as Hs.
  { by rewrite <-!elem_of_dom, main_domain_perm. }
  destruct (main_topics (folded docs) !! t) as [e|] eqn:E,
           (main_topics (folded docs') !! t) as [e'|] eqn:E'; simpl.
  - f_equal. by apply Hf.
  - destruct Hs as [Hs _]. destruct Hs; [eauto|done].
  - destruct Hs as [_ Hs]. destruct Hs; [eauto|done].
  - done.
Qed.

Lemma main_entry_lookup st t (e : topic_acc) :
  main_topics st !! t = Some e → main_entry t st = e.
Proof. intros H. unfold main_entry. by rewrite H. Qed.

Lemma result_stocks_perm t :
  stocks <$> r_main_topics (aggregate_docs docs) !! t
  = stocks <$> r_main_topics (aggregate_docs docs') !! t.
Proof.
  apply main_lookup_perm. intros e He e' He'. simpl.
  apply main_entry_lookup in He, He'.
  pose proof (stocks_of_perm t) as H. unfold stocks_of in H.
  rewrite He, He' in H. by rewrite H.
Qed.

Lemma result_attached_perm t :
  attached <$> r_main_topics (aggregate_docs docs) !! t
  = attached <$> r_main_topics (aggregate_docs docs') !! t.
Proof.
  apply main_lookup_perm. intros e He e' He'. rewrite !attached_finalize.
  apply main_entry_lookup in He, He'.
  pose proof (stock_attached_of_perm t) as H. unfold stock_attached_of in H.
  rewrite He, He' in H. by rewrite H.
Qed.

Lemma result_comment_perm t :
  (length (filter (λ c, c ≠ []) (mention_comments t docs)) ≤ 1)%nat →
  comment <$> r_main_topics (aggregate_docs docs) !! t
  = comment <$> r_main_topics (aggregate_docs docs') !! t.
Proof.
  intros Hl. apply main_lookup_perm. intros e He e' He'. simpl.
  apply main_entry_lookup in He, He'.
  pose proof (comment_of_perm t Hl) as H. unfold comment_of in H.
  by rewrite He, He' in H.
Qed.
End order.

(** ** What the parser hands to the aggregator *)

Section parser_output.
Implicit Types (st : pstate) (d : list (list N * mention)) (line : list N).

Lemma dict_set_ok k v d : names_ok (m_attached v) → dict_ok d → dict_ok (dict_set k v d).
Proof.
  intros Hv. induction 1 as [|[k' v'] d Hi Hd IH]; simpl.
  - by repeat constructor.
  - destruct (str_eqb k' k); constructor; auto.
Qed.

Lemma save_topic_ok st d :
  names_ok (attached_topics st) → dict_ok d → dict_ok (save_topic st d).
Proof.
  intros Hs Hd. unfold save_topic. destruct (current_topic st) as [t|]; [|done].
  destruct (nonempty t); [|done]. by apply dict_set_ok.
Qed.

Lemma parse_line_ok st d line :
  names_ok (attached_topics st) → dict_ok d →
  names_ok (attached_topics (parse_line (st, d) line).1)
  ∧ dict_ok (parse_line (st, d) line).2.
Proof.
  intros Hs Hd. unfold parse_line.
  destruct (topic_match line) as [g|]; simpl.
  { split; [constructor|by apply save_topic_ok]. }
  destruct (has_topic st); [|done].
  destruct (list_match line) as [g|]; simpl.
  { split; [|done]. destruct (nonempty (strip g)) eqn:E; simpl; [|done].
    apply Forall_app. split; [done|]. repeat constructor. by apply nonempty_true. }
  by destruct (str_eqb (strip line) []), (in_list st).
Qed.

Lemma parse_lines_ok body st d :
  names_ok (attached_topics st) → dict_ok d →
  names_ok (attached_topics (fold_left parse_line body (st, d)).1)
  ∧ dict_ok (fold_left parse_line body (st, d)).2.
Proof.
  revert st d; induction body as [|line body IH]; intros st d Hs Hd; [done|].
  cbn [fold_left]. destruct (parse_line_ok st d line Hs Hd) as [Hs' Hd'].
  destruct (parse_line (st, d) line) as [st' d']. by apply IH.
Qed.

Lemma parse_topics_section_ok body d : dict_ok d → dict_ok (parse_topics_section body d).
Proof.
  intros Hd. unfold parse_topics_section.
  destruct (parse_lines_ok body pstate_init d) as [Hs' Hd']; [constructor|done|].
  destruct (fold_left parse_line body (pstate_init, d)) as [st' d'].
  by apply save_topic_ok.
Qed.

Lemma parse_section_ok d section : dict_ok d → dict_ok (parse_section d section).
Proof.
  intros Hd. unfold parse_section. destruct (negb _); [done|].
  destruct (str_eqb _ _); [|done]. by apply parse_topics_section_ok.
Qed.

(** The parser never yields an empty attached name (line 72). *)
Lemma parse_markdown_file_ok content stem : dict_ok (parse_markdown_file content stem).2.
Proof.
  unfold parse_markdown_file; simpl.
  assert (dict_ok []) as H by constructor. revert H.
  generalize (@nil (list N * mention)).
  induction (re_split_sections content) as [|sec secs IH]; intros d Hd; [done|].
  cbn [fold_left]. by apply IH, parse_section_ok.
Qed.

Lemma parse_corpus_ok files (doc : parsed_doc) t m x :
  doc ∈ parse_corpus files → (t, m) ∈ d_topics doc → x ∈ m_attached m → x ≠ [].
Proof.
  unfold parse_corpus. rewrite list_elem_of_omap. intros (f & _ & Hf) Hi Hx.
  unfold parse_file in Hf. destruct (f_content f) as [content|]; [|done].
  pose proof (parse_markdown_file_ok content (f_stem f)) as Hok.
  destruct (parse_markdown_file content (f_stem f)) as [name topics].
  injection Hf as <-. simpl in *.
  unfold dict_ok in Hok. rewrite Forall_forall in Hok.
  specialize (Hok _ Hi). simpl in Hok. unfold names_ok in Hok.
  rewrite Forall_forall in Hok. by apply Hok.
Qed.

(** Reading, parsing and folding file by file is folding the documents
    that parse. *)
Lemma collect_files_docs files ast :
  fold_left collect_file files ast = fold_left fold_doc (parse_corpus files) ast.
Proof.
  revert ast; induction files as [|f files IH]; intros ast; [done|].
  cbn [fold_left]. rewrite IH. unfold parse_corpus. cbn [omap list_omap].
  unfold collect_file, parse_file. destruct (f_content f) as [content|]; [|done].
  by destruct (parse_markdown_file content (f_stem f)).
Qed.

Lemma collect_all_topics_docs files :
  collect_all_topics files = aggregate_docs (parse_corpus files).
Proof. unfold collect_all_topics, aggregate_docs. by rewrite collect_files_docs. Qed.
End parser_output.

(** ** The comment of a main topic *)

Example merged_comment_spec_examples :
  merged_comment_spec [lit "A"; []] = lit "A" ∧
  merged_comment_spec [lit "A"; lit "B"] = lit "A" ++ NL :: lit "B" ∧
  merged_comment_spec [lit "A"; lit "A"] = lit "A".
Proof. vm_compute. done. Qed.

(** The three cases of the specification, on the code. *)
Example merge_comment_examples :
  fold_left merge_comment [lit "A"; []] [] = lit "A" ∧
  fold_left merge_comment [lit "A"; lit "B"] [] = lit "A" ++ NL :: lit "B" ∧
  fold_left merge_comment [lit "A"; lit "A"] [] = lit "A".
Proof. vm_compute. done. Qed.

(** C1 (as the code has it). The comment of a main topic is the fold of
    [merge_comment] over the comments of its mentions, in the order of the
    documents: an empty comment changes nothing, the first non-empty one is
    taken as it is, and a later non-empty one is appended after a line break
    exactly when it does not occur inside the comment merged so far. *)
Theorem comment_merge_rule (docs : list parsed_doc) (t : list N) (info : topic_info) :
  r_main_topics (aggregate_docs docs) !! t = Some info →
  comment info = fold_left merge_comment (mention_comments t docs) [] ∧
  ∀ cur c : list N,
    (c = [] → merge_comment cur c = cur) ∧
    (c ≠ [] → cur = [] → merge_comment cur c = c) ∧
    (c ≠ [] → cur ≠ [] → (∃ p q, cur = p ++ c ++ q) → merge_comment cur c = cur) ∧
    (c ≠ [] → cur ≠ [] → ¬ (∃ p q, cur = p ++ c ++ q) →
       merge_comment cur c = cur ++ NL :: c).
Proof.
  intros H. apply aggregate_main_view in H as (_ & -> & _ & _).
  split; [apply comment_of_docs|]. intros cur c. unfold merge_comment.
  repeat split.
  - by intros ->.
  - intros Hc ->. apply nonempty_true in Hc. by rewrite Hc.
  - intros Hc Hcur Hin. apply nonempty_true in Hc, Hcur. apply str_in_spec in Hin.
    by rewrite Hc, Hcur, Hin.
  - intros Hc Hcur Hin. apply nonempty_true in Hc, Hcur.
    rewrite <-str_in_spec in Hin. apply not_true_is_false in Hin.
    by rewrite Hc, Hcur, Hin.
Qed.

Lemma comment_merge_rule_witness :
  comment (TopicInfo [lit "S1"; lit "S2"] (lit "AB") [] ∅)
  = fold_left merge_comment (mention_comments (lit "T") docs_ab) [].
Proof.
  apply (comment_merge_rule docs_ab (lit "T")). vm_compute. reflexivity.
Defined.

(** C1 as stated fails: "A" is not empty and is not the text "AB" merged
    before it, so the specification appends it, and the code does not. *)
Lemma comment_merge_counterexample :
  mention_comments (lit "T") docs_ab = [lit "AB"; lit "A"] ∧
  merged_comment_spec [lit "AB"; lit "A"] = lit "AB" ++ NL :: lit "A" ∧
  comment <$> r_main_topics (aggregate_docs docs_ab) !! lit "T" = Some (lit "AB") ∧
  comment <$> r_main_topics (aggregate_docs docs_ab) !! lit "T"
  ≠ Some (merged_comment_spec (mention_comments (lit "T") docs_ab)).
Proof. vm_compute. repeat split; discriminate. Qed.

(** ** Order of discovery *)

Lemma result_sorted (docs : list parsed_doc) (t : list N) (info : topic_info) :
  r_main_topics (aggregate_docs docs) !! t = Some info →
  StronglySorted str_lt (stocks info) ∧ StronglySorted str_lt (attached info).
Proof.
  intros H. apply aggregate_main_view in H as (-> & _ & -> & _).
  split; apply sorted_elements_lt.
Qed.

Lemma result_stock_attached_perm (docs docs' : list parsed_doc) (t : list N) :
  docs ≡ₚ docs' →
  stock_attached <$> r_main_topics (aggregate_docs docs) !! t
  = stock_attached <$> r_main_topics (aggregate_docs docs') !! t.
Proof.
  intros Hp. apply main_lookup_perm; [done|]. intros e He e' He'. simpl.
  apply main_entry_lookup in He, He'.
  pose proof (stock_attached_of_perm docs docs' Hp t) as H. unfold stock_attached_of in H.
  by rewrite He, He' in H.
Qed.

(** C6. When the documents are discovered in another order, every main
    topic gets the same [stocks] and the same [attached] list, and both
    are strictly increasing in the order of Python strings, so they are
    written out in the same order. *)
Theorem stocks_attached_order_independent (docs docs' : list parsed_doc) (t : list N) :
  docs ≡ₚ docs' →
  stocks <$> r_main_topics (aggregate_docs docs) !! t
    = stocks <$> r_main_topics (aggregate_docs docs') !! t ∧
  attached <$> r_main_topics (aggregate_docs docs) !! t
    = attached <$> r_main_topics (aggregate_docs docs') !! t ∧
  ∀ info, r_main_topics (aggregate_docs docs) !! t = Some info →
    StronglySorted str_lt (stocks info) ∧ StronglySorted str_lt (attached info).
Proof.
  intros Hp. split; [by apply result_stocks_perm|].
  split; [by apply result_attached_perm|]. apply result_sorted.
Qed.

Lemma stocks_attached_order_independent_witness :
  stocks <$> r_main_topics (aggregate_docs [doc_a; doc_b]) !! lit "T"
  = stocks <$> r_main_topics (aggregate_docs [doc_b; doc_a]) !! lit "T".
Proof.
  apply (stocks_attached_order_independent [doc_a; doc_b] [doc_b; doc_a] (lit "T")).
  apply perm_swap.
Defined.

(** C3 (as the code has it). When the documents are discovered in another
    order, the aggregator returns the same main topics with the same
    [stocks], [attached] and per-stock attached sets, the same two
    attached-topic mappings, the same path for every stock name that no two
    documents share, and the same comment for every main topic that gets a
    non-empty comment from at most one mention. *)
Theorem aggregate_order_independent (docs docs' : list parsed_doc) :
  docs ≡ₚ docs' →
  dom (r_main_topics (aggregate_docs docs)) = dom (r_main_topics (aggregate_docs docs')) ∧
  (∀ t, stocks <$> r_main_topics (aggregate_docs docs) !! t
          = stocks <$> r_main_topics (aggregate_docs docs') !! t ∧
        attached <$> r_main_topics (aggregate_docs docs) !! t
          = attached <$> r_main_topics (aggregate_docs docs') !! t ∧
        stock_attached <$> r_main_topics (aggregate_docs docs) !! t
          = stock_attached <$> r_main_topics (aggregate_docs docs') !! t) ∧
  (∀ t, (length (filter (λ c, c ≠ []) (mention_comments t docs)) ≤ 1)%nat →
        comment <$> r_main_topics (aggregate_docs docs) !! t
          = comment <$> r_main_topics (aggregate_docs docs') !! t) ∧
  r_attached_to_main (aggregate_docs docs) = r_attached_to_main (aggregate_docs docs') ∧
  r_attached_to_stocks (aggregate_docs docs)
    = r_attached_to_stocks (aggregate_docs docs') ∧
  (∀ s, (length (doc_paths s docs) ≤ 1)%nat →
        r_stock_to_path (aggregate_docs docs) !! s
          = r_stock_to_path (aggregate_docs docs') !! s).
Proof.
  intros Hp.
  split; [|split; [|split; [|split; [|split]]]].
  - unfold aggregate_docs, finalize; simpl. rewrite !dom_fmap_L.
    by apply main_domain_perm.
  - intros t. split; [by apply result_stocks_perm|].
    split; [by apply result_attached_perm|by apply result_stock_attached_perm].
  - intros t Hl. by apply result_comment_perm.
  - by apply attached_to_main_perm.
  - by apply attached_to_stocks_perm.
  - intros s Hl. by apply stock_to_path_perm.
Qed.

Lemma aggregate_order_independent_witness :
  r_attached_to_main (aggregate_docs [doc_a; doc_b])
  = r_attached_to_main (aggregate_docs [doc_b; doc_a]).
Proof.
  apply (aggregate_order_independent [doc_a; doc_b] [doc_b; doc_a]).
  apply perm_swap.
Defined.

(** C3 as stated fails: two documents with different stock names, in the
    two possible orders, give different comments for their common topic. *)
Lemma aggregate_order_counterexample :
  [doc_a; doc_b] ≡ₚ [doc_b; doc_a] ∧
  d_stock_name doc_a ≠ d_stock_name doc_b ∧
  comment <$> r_main_topics (aggregate_docs [doc_a; doc_b]) !! lit "T"
    = Some (lit "A" ++ NL :: lit "B") ∧
  comment <$> r_main_topics (aggregate_docs [doc_b; doc_a]) !! lit "T"
    = Some (lit "B" ++ NL :: lit "A") ∧
  aggregate_docs [doc_a; doc_b] ≠ aggregate_docs [doc_b; doc_a].
Proof.
  split; [apply perm_swap|]. split; [vm_compute; discriminate|].
  split; [vm_compute; reflexivity|]. split; [vm_compute; reflexivity|].
  intros E. apply (f_equal (λ r, comment <$> r_main_topics r !! lit "T")) in E.
  vm_compute in E. discriminate.
Qed.

(** ** The union of the attached names *)

Lemma elem_of_attached_union (t x : list N) (docs : list parsed_doc) :
  x ∈ attached_union t docs
  ↔ ∃ d m, d ∈ docs ∧ (t, m) ∈ d_topics d ∧ x ∈ m_attached m.
Proof.
  unfold attached_union. rewrite elem_of_union_list. split.
  - intros (X & HX & Hx). apply elem_of_flat_map in HX as (d & Hd & HX).
    unfold doc_attached_sets in HX.
    apply list_elem_of_omap in HX as ([k m] & Hi & HX). simpl in HX.
    case_decide as Hk; [|done]. injection HX as <-. subst k.
    apply elem_of_list_to_set in Hx. by exists d, m.
  - intros (d & m & Hd & Hi & Hx). exists (list_to_set (m_attached m)).
    split; [|by apply elem_of_list_to_set].
    apply elem_of_flat_map. exists d. split; [done|].
    unfold doc_attached_sets. apply list_elem_of_omap. exists (t, m).
    split; [done|]. simpl. by rewrite decide_True.
Qed.

(** C4. The [attached] list of a main topic is the sorted union of the
    attached names of all its mentions, whatever corpus was folded: a name
    is in it exactly when some parsed document lists it under that topic. *)
Theorem attached_is_union_of_mentions (files : list md_file) (t : list N)
    (info : topic_info) :
  r_main_topics (collect_all_topics files) !! t = Some info →
  attached info = sorted_elements (attached_union t (parse_corpus files)) ∧
  ∀ x, x ∈ attached info
       ↔ ∃ d m, d ∈ parse_corpus files ∧ (t, m) ∈ d_topics d ∧ x ∈ m_attached m.
Proof.
  rewrite collect_all_topics_docs. intros H.
  apply aggregate_main_view in H as (_ & _ & -> & _).
  assert (all_attached (stock_attached_of t (folded (parse_corpus files)))
          = attached_union t (parse_corpus files)) as ->.
  { apply set_eq. intros x. rewrite all_attached_docs, elem_of_attached_union.
    split; [naive_solver|]. intros (d & m & Hd & Hi & Hx).
    split; [by eapply parse_corpus_ok|by exists d, m]. }
  split; [done|]. intros x.
  by rewrite elem_of_sorted_elements, elem_of_attached_union.
Qed.

Lemma attached_is_union_of_mentions_witness :
  attached (TopicInfo [lit "StockA"; lit "StockB"] (lit "some note") [lit "SubA"]
              {[ lit "StockA" := {[ lit "SubA" ]}; lit "StockB" := {[ lit "SubA" ]} ]})
  = sorted_elements (attached_union (lit "Theme1") (parse_corpus [doc1; doc2])).
Proof.
  apply (attached_is_union_of_mentions [doc1; doc2] (lit "Theme1")).
  vm_compute. reflexivity.
Defined.

(** ** The scenario of two documents *)

(** C5. [doc1] is titled StockA and notes "some note" and the attached
    topic SubA under Theme1; [doc2] is titled StockB and lists SubA under
    Theme1.  Folded in that order, they give the one main topic Theme1 with
    both stocks, the comment of [doc1] and the attached list [SubA], and the
    attached topic SubA related to Theme1 and to both stocks. *)
Theorem end_to_end_scenario :
  parse_corpus [doc1; doc2]
  = [ParsedDoc (lit "StockA") (lit "a/StockA.md")
       [(lit "Theme1", Mention (lit "some note") [lit "SubA"])];
     ParsedDoc (lit "StockB") (lit "b/StockB.md")
       [(lit "Theme1", Mention [] [lit "SubA"])]] ∧
  elements (dom (r_main_topics (collect_all_topics [doc1; doc2]))) = [lit "Theme1"] ∧
  stocks <$> r_main_topics (collect_all_topics [doc1; doc2]) !! lit "Theme1"
    = Some [lit "StockA"; lit "StockB"] ∧
  comment <$> r_main_topics (collect_all_topics [doc1; doc2]) !! lit "Theme1"
    = Some (lit "some note") ∧
  attached <$> r_main_topics (collect_all_topics [doc1; doc2]) !! lit "Theme1"
    = Some [lit "SubA"] ∧
  elements (dom (r_attached_to_main (collect_all_topics [doc1; doc2]))) = [lit "SubA"] ∧
  sorted_elements <$> r_attached_to_main (collect_all_topics [doc1; doc2]) !! lit "SubA"
    = Some [lit "Theme1"] ∧
  sorted_elements <$> r_attached_to_stocks (collect_all_topics [doc1; doc2]) !! lit "SubA"
    = Some [lit "StockA"; lit "StockB"].
Proof. vm_compute. repeat split; reflexivity. Qed.

(** ** The renderer *)

Section renderer.
Implicit Types (s t a : list N) (s2p : gmap (list N) (list N)).

Lemma fold_append {A} (f : A → list N) (l : list A) (content : list N) :
  fold_left (λ content z, content ++ f z) l content = content ++ concat (map f l).
Proof.
  revert content; induction l as [|z l IH]; intros content; simpl.
  - by rewrite app_nil_r.
  - by rewrite IH, <-app_assoc.
Qed.

Lemma anchor_replace t :
  replace_char UNDERSCORE DASH (replace_char SP DASH t) = anchor_of t.
Proof.
  induction t as [|c t IH]; [done|]. cbn [replace_char anchor_of map].
  fold (anchor_of t). rewrite IH. f_equal.
  destruct (N.eqb_spec c SP) as [->|Hs]; [done|].
  by destruct (N.eqb_spec c UNDERSCORE).
Qed.

Lemma anchor_of_clean t : (SP ∉ anchor_of t) ∧ (UNDERSCORE ∉ anchor_of t).
Proof.
  unfold anchor_of. rewrite !list_elem_of_fmap.
  split; intros (c & Hc & _); revert Hc;
    destruct (N.eqb_spec c SP) as [->|Hs]; simpl; try discriminate;
    destruct (N.eqb_spec c UNDERSCORE) as [->|Hu]; try discriminate; congruence.
Qed.

Lemma main_stock_line_spec t s2p s :
  main_stock_line t s2p s
  = match s2p !! s with
    | Some p =>
      lit "- [" ++ s ++ lit "](" ++ lit "../../stocks/" ++ p ++ lit "#" ++ anchor_of t
        ++ lit ")" ++ [NL]
    | None => lit "- " ++ s ++ [NL]
    end.
Proof.
  unfold main_stock_line. destruct (s2p !! s) as [p|]; [|done].
  cbv zeta. rewrite anchor_replace. by rewrite <-!app_assoc.
Qed.

Lemma generate_main_topic_file_spec t (info : topic_info) s2p :
  generate_main_topic_file t info s2p
  = lit "# " ++ t ++ [NL; NL]
    ++ match stocks info with
       | [] => []
       | _ :: _ =>
         lit "## 股票列表" ++ [NL; NL]
           ++ concat (map (main_stock_line t s2p) (stocks info)) ++ [NL]
       end
    ++ match attached info with
       | [] => []
       | _ :: _ =>
         lit "## 附带题材" ++ [NL; NL]
           ++ concat (map attached_link_line (attached info)) ++ [NL]
       end.
Proof.
  unfold generate_main_topic_file. cbv zeta.
  destruct (stocks info) as [|s0 ss]; destruct (attached info) as [|a0 aa];
    rewrite ?(fold_append (main_stock_line t s2p)), ?(fold_append attached_link_line);
    rewrite <-?app_assoc, ?app_nil_r; reflexivity.
Qed.

Lemma generate_attached_topic_file_spec a (ms ss : gset (list N)) s2p :
  ms ≠ ∅ → ss ≠ ∅ →
  generate_attached_topic_file a ms ss s2p
  = lit "# " ++ a ++ [NL; NL]
    ++ lit "## 相关主题材" ++ [NL; NL]
    ++ concat (map main_link_line (sorted_elements ms)) ++ [NL]
    ++ lit "## 相关股票" ++ [NL; NL]
    ++ concat (map (attached_stock_line s2p) (sorted_elements ss)).
Proof.
  intros Hm Hs. unfold generate_attached_topic_file. cbv zeta.
  rewrite !decide_False by done.
  rewrite (fold_append (attached_stock_line s2p)), (fold_append main_link_line).
  by rewrite <-!app_assoc.
Qed.
End renderer.

(** C7. A main-topic document is its title, then (when there are stocks)
    the stock section with one line per stock in the order of [stocks],
    then the attached section.  A stock with a path in [stock_to_path] is a
    link to that path under ../../stocks/ whose fragment is the topic name
    with each space and each underscore replaced by a dash; a stock without
    one is plain text.  For what the aggregator returns, [stocks] is
    sorted. *)
Theorem main_topic_file_stock_links (t : list N) (info : topic_info)
    (s2p : gmap (list N) (list N)) :
  generate_main_topic_file t info s2p
  = lit "# " ++ t ++ [NL; NL]
    ++ match stocks info with
       | [] => []
       | _ :: _ =>
         lit "## 股票列表" ++ [NL; NL]
           ++ concat (map (main_stock_line t s2p) (stocks info)) ++ [NL]
       end
    ++ match attached info with
       | [] => []
       | _ :: _ =>
         lit "## 附带题材" ++ [NL; NL]
           ++ concat (map attached_link_line (attached info)) ++ [NL]
       end ∧
  (∀ stock p, s2p !! stock = Some p →
     main_stock_line t s2p stock
     = lit "- [" ++ stock ++ lit "](" ++ lit "../../stocks/" ++ p ++ lit "#"
         ++ anchor_of t ++ lit ")" ++ [NL]) ∧
  (∀ stock, s2p !! stock = None →
     main_stock_line t s2p stock = lit "- " ++ stock ++ [NL]) ∧
  length (anchor_of t) = length t ∧
  (∀ (i : nat) (c : N), t !! i = Some c →
     anchor_of t !! i = Some (if (c =? SP) || (c =? UNDERSCORE) then DASH else c)) ∧
  (∀ docs info', r_main_topics (aggregate_docs docs) !! t = Some info' →
     main_topic_files (aggregate_docs docs) !! t
     = Some (generate_main_topic_file t info' (r_stock_to_path (aggregate_docs docs)))
     ∧ StronglySorted str_lt (stocks info')).
Proof.
  split; [apply generate_main_topic_file_spec|].
  split; [intros stock p H; by rewrite main_stock_line_spec, H|].
  split; [intros stock H; by rewrite main_stock_line_spec, H|].
  split; [apply length_map|].
  split.
  - intros i c H. unfold anchor_of. by rewrite list_lookup_fmap, H.
  - intros docs info' H. split; [|by eapply result_sorted].
    unfold main_topic_files. by rewrite map_lookup_imap, H.
Qed.

Lemma main_topic_file_stock_links_witness :
  main_stock_line (lit "new energy_cars") {[ lit "StockA" := lit "a/StockA.md" ]}
    (lit "StockA")
  = lit "- [StockA](../../stocks/a/StockA.md#new-energy-cars)" ++ [NL].
Proof.
  pose proof (main_topic_file_stock_links (lit "new energy_cars")
                (TopicInfo [lit "StockA"] [] [] ∅)
                {[ lit "StockA" := lit "a/StockA.md" ]}) as (_ & H & _).
  rewrite (H (lit "StockA") (lit "a/StockA.md")); vm_compute; reflexivity.
Defined.

(** ** No orphans *)

(** C9. Whatever documents are folded: every main topic has a stock, the
    two attached-topic mappings have the same keys, every attached topic
    has a main topic and a stock, and so its document holds both the
    related-main-topics section and the related-stocks section. *)
Theorem no_orphan_entities (docs : list parsed_doc) :
  (∀ t info, r_main_topics (aggregate_docs docs) !! t = Some info → stocks info ≠ []) ∧
  dom (r_attached_to_main (aggregate_docs docs))
    = dom (r_attached_to_stocks (aggregate_docs docs)) ∧
  (∀ a ms, r_attached_to_main (aggregate_docs docs) !! a = Some ms → ms ≠ ∅) ∧
  (∀ a ss, r_attached_to_stocks (aggregate_docs docs) !! a = Some ss → ss ≠ ∅) ∧
  (∀ a ms, r_attached_to_main (aggregate_docs docs) !! a = Some ms →
     ∃ ss, r_attached_to_stocks (aggregate_docs docs) !! a = Some ss ∧
       attached_topic_files (aggregate_docs docs) !! a
       = Some (lit "# " ++ a ++ [NL; NL]
               ++ lit "## 相关主题材" ++ [NL; NL]
               ++ concat (map main_link_line (sorted_elements ms)) ++ [NL]
               ++ lit "## 相关股票" ++ [NL; NL]
               ++ concat (map (attached_stock_line
                                 (r_stock_to_path (aggregate_docs docs)))
                            (sorted_elements ss)))).
Proof.
  assert (∀ a ms, attached_to_main (folded docs) !! a = Some ms → ms ≠ ∅) as Hm.
  { intros a ms H. assert (a ∈ dom (attached_to_main (folded docs))) as Hd.
    { apply elem_of_dom. eauto. }
    apply dom_attached_docs in Hd as (Ha & d & t & m & Hd & Hi & Hx).
    assert (t ∈ get_set a (attached_to_main (folded docs))) as Ht.
    { apply attached_to_main_docs. split; [done|]. by exists d, m. }
    unfold get_set in Ht. rewrite H in Ht. simpl in Ht. set_solver. }
  assert (∀ a ss, attached_to_stocks (folded docs) !! a = Some ss → ss ≠ ∅) as Hs.
  { intros a ss H. assert (a ∈ dom (attached_to_main (folded docs))) as Hd.
    { rewrite dom_attached_same. apply elem_of_dom. eauto. }
    apply dom_attached_docs in Hd as (Ha & d & t & m & Hd & Hi & Hx).
    assert (d_stock_name d ∈ get_set a (attached_to_stocks (folded docs))) as Ht.
    { apply attached_to_stocks_docs. split; [done|]. by exists d, t, m. }
    unfold get_set in Ht. rewrite H in Ht. simpl in Ht. set_solver. }
  split; [|split; [|split; [|split]]].
  - intros t info H. pose proof H as Hv.
    apply aggregate_main_view in Hv as (-> & _).
    rewrite sorted_elements_nil.
    assert (t ∈ dom (main_topics (folded docs))) as Hd.
    { unfold aggregate_docs, finalize in H. simpl in H. rewrite lookup_fmap in H.
      apply elem_of_dom. fold (folded docs) in H.
      destruct (main_topics (folded docs) !! t); [eauto|done]. }
    apply main_domain_docs in Hd as (d & m & Hd & Hi).
    assert (d_stock_name d ∈ stocks_of t (folded docs)) as Hin.
    { apply stocks_of_docs. by exists d, m. }
    set_solver.
  - apply dom_attached_same.
  - apply Hm.
  - apply Hs.
  - intros a ms H. change (attached_to_main (folded docs) !! a = Some ms) in H.
    assert (is_Some (attached_to_stocks (folded docs) !! a)) as [ss Hss].
    { apply elem_of_dom. rewrite <-dom_attached_same. apply elem_of_dom. eauto. }
    exists ss. split; [done|].
    unfold attached_topic_files. rewrite map_lookup_imap.
    change (r_attached_to_main (aggregate_docs docs)) with (attached_to_main (folded docs)).
    change (r_attached_to_stocks (aggregate_docs docs))
      with (attached_to_stocks (folded docs)).
    rewrite H, Hss. simpl. f_equal.
    apply generate_attached_topic_file_spec; eauto.
Qed.

Lemma no_orphan_entities_witness :
  stocks (TopicInfo [lit "S1"; lit "S2"] (lit "A" ++ NL :: lit "B") [lit "x"; lit "y"]
            {[ lit "S1" := {[ lit "x" ]}; lit "S2" := {[ lit "y"; lit "x" ]} ]}) ≠ [].
Proof.
  apply (proj1 (no_orphan_entities [doc_a; doc_b]) (lit "T")).
  vm_compute. reflexivity.
Defined.

(** * Further properties of the code *)

(** ** [strip] *)

Section strip_facts.
Implicit Types (s l : list N) (c : N).

Lemma drop_while_all p s : forallb p s = true → drop_while p s = [].
Proof.
  induction s as [|c s IH]; simpl; [done|].
  intros H. apply andb_true_iff in H as [-> H]. auto.
Qed.

Lemma drop_while_nil p s : drop_while p s = [] → forallb p s = true.
Proof.
  induction s as [|c s IH]; simpl; [done|].
  destruct (p c); [auto|discriminate].
Qed.

Lemma drop_while_head p s c r : drop_while p s = c :: r → p c = false.
Proof.
  induction s as [|x s IH]; simpl; [done|].
  destruct (p x) eqn:E; [auto|]. by intros [= -> ->].
Qed.

Lemma rstrip_snoc_space s c : is_space c = true → rstrip (s ++ [c]) = rstrip s.
Proof. intros H. unfold rstrip. rewrite rev_app_distr. simpl. by rewrite H. Qed.

Lemma rstrip_snoc_text s c : is_space c = false → rstrip (s ++ [c]) = s ++ [c].
Proof.
  intros H. unfold rstrip. rewrite rev_app_distr. simpl. rewrite H.
  simpl. by rewrite rev_involutive.
Qed.

(** [rstrip] cuts a run of white space off the end and stops at text. *)
Lemma rstrip_spec s :
  ∃ ws, s = rstrip s ++ ws ∧ forallb is_space ws = true ∧
        (rstrip s = [] ∨ ∃ l c, rstrip s = l ++ [c] ∧ is_space c = false).
Proof.
  induction s as [|c s IH] using rev_ind.
  - exists []. repeat split. by left.
  - destruct (is_space c) eqn:E.
    + rewrite rstrip_snoc_space by done. destruct IH as (ws & Hs & Hws & Hr).
      exists (ws ++ [c]). split; [by rewrite app_assoc, <-Hs|]. split; [|done].
      rewrite forallb_app, Hws. simpl. by rewrite E.
    + rewrite rstrip_snoc_text by done. exists []. split; [by rewrite app_nil_r|].
      split; [done|]. right. by exists s, c.
Qed.

Lemma rstrip_fixed l c : is_space c = false → rstrip (l ++ [c]) = l ++ [c].
Proof. apply rstrip_snoc_text. Qed.

Lemma lstrip_fixed c r : is_space c = false → lstrip (c :: r) = c :: r.
Proof. intros H. unfold lstrip. simpl. by rewrite H. Qed.

Lemma lstrip_spec s : lstrip s = [] ∨ ∃ c r, lstrip s = c :: r ∧ is_space c = false.
Proof.
  unfold lstrip. destruct (drop_while is_space s) as [|c r] eqn:E; [by left|].
  right. exists c, r. split; [done|]. by eapply drop_while_head.
Qed.

(** What [strip] returns is empty, or begins and ends with text. *)
Lemma strip_spec s :
  strip s = [] ∨
  ∃ c r l c', strip s = c :: r ∧ strip s = l ++ [c'] ∧
              is_space c = false ∧ is_space c' = false.
Proof.
  unfold strip. destruct (lstrip_spec s) as [->|(c & r & -> & Hc)]; [by left|].
  destruct (rstrip_spec (c :: r)) as (ws & Hs & Hws & [Hn|(l & c' & Hr & Hc')]).
  - rewrite Hn in Hs. simpl in Hs. subst ws. simpl in Hws. by rewrite Hc in Hws.
  - right. rewrite Hr. destruct l as [|x l]; simpl in *.
    + rewrite Hr in Hs. injection Hs as -> _. by exists c', [], [], c'.
    + rewrite Hr in Hs. injection Hs as -> _. by exists x, (l ++ [c']), (x :: l), c'.
Qed.

Lemma strip_stripped s : stripped (strip s).
Proof.
  unfold stripped. destruct (strip_spec s) as [->|(c & r & l & c' & H1 & H2 & Hc & Hc')];
    [done|].
  unfold strip at 1. rewrite H1 at 1. rewrite lstrip_fixed by done.
  rewrite <-H1, H2. by apply rstrip_fixed.
Qed.

Lemma strip_nil_spaces s : strip s = [] → forallb is_space s = true.
Proof.
  unfold strip. intros H. destruct (lstrip_spec s) as [Hl|(c & r & Hl & Hc)].
  - by apply drop_while_nil.
  - rewrite Hl in H. destruct (rstrip_spec (c :: r)) as (ws & Hs & Hws & _).
    rewrite H in Hs. simpl in Hs. subst ws. simpl in Hws. by rewrite Hc in Hws.
Qed.

Lemma blank_no_marker mark0 mark s :
  is_space mark0 = false → strip s = [] → re_match_marker (mark0 :: mark) s = None.
Proof.
  intros Hm Hs. apply strip_nil_spaces in Hs. unfold re_match_marker.
  destruct s as [|c s]; [done|]. simpl in *.
  apply andb_true_iff in Hs as [Hc _].
  destruct (N.eqb_spec mark0 c) as [->|]; [congruence|done].
Qed.

Lemma blank_not_heading s : strip s = [] → topic_match s = None.
Proof. apply blank_no_marker. done. Qed.

Lemma blank_not_item s : strip s = [] → list_match s = None.
Proof. apply blank_no_marker. done. Qed.
End strip_facts.

(** ** The stock name *)

Section title_facts.
Implicit Types (s l ws txt rest : list N) (c : N) (ls : list (list N)).

Lemma take_while_app_all p ws s :
  forallb p ws = true → take_while p (ws ++ s) = ws ++ take_while p s.
Proof.
  induction ws as [|c ws IH]; simpl; [done|].
  intros H. apply andb_true_iff in H as [-> H]. by rewrite IH.
Qed.

Lemma drop_while_app_all p ws s :
  forallb p ws = true → drop_while p (ws ++ s) = drop_while p s.
Proof.
  induction ws as [|c ws IH]; simpl; [done|].
  intros H. apply andb_true_iff in H as [-> H]. by rewrite IH.
Qed.

Lemma take_line txt rest :
  NL ∉ txt → rest = [] ∨ (∃ r, rest = NL :: r) →
  take_while (λ c, negb (c =? NL)) (txt ++ rest) = txt.
Proof.
  intros Hn Hr. induction txt as [|c txt IH]; simpl.
  - by destruct Hr as [->|[r ->]].
  - apply not_elem_of_cons in Hn as [Hc Hn].
    destruct (N.eqb_spec c NL); [done|]. simpl. by rewrite IH.
Qed.

Lemma title_search_false_line l rest :
  NL ∉ l → title_search false (l ++ NL :: rest) = title_search true rest.
Proof.
  induction l as [|c l IH]; intros Hn; simpl; [done|].
  apply not_elem_of_cons in Hn as [Hc Hn].
  destruct (N.eqb_spec c NL); [done|]. by apply IH.
Qed.

Lemma title_search_false_last l : NL ∉ l → title_search false l = None.
Proof.
  induction l as [|c l IH]; intros Hn; simpl; [done|].
  apply not_elem_of_cons in Hn as [Hc Hn].
  destruct (N.eqb_spec c NL); [done|]. by apply IH.
Qed.

Lemma title_at_text c rest : is_space c = false → title_at (c :: rest) = None.
Proof. intros H. unfold title_at. simpl. by rewrite H. Qed.

Lemma title_search_skip_line l rest :
  no_title_start l = true → NL ∉ l →
  title_search true (l ++ NL :: rest) = title_search true rest.
Proof.
  intros Hs Hn. destruct l as [|c l]; [done|].
  apply not_elem_of_cons in Hn as [Hc Hn]. simpl in *.
  destruct (N.eqb_spec c HASH) as [->|Hh]; simpl.
  - destruct l as [|c2 l]; [done|]. apply negb_true_iff in Hs.
    change ((c2 :: l) ++ NL :: rest) with (c2 :: (l ++ NL :: rest)).
    rewrite title_at_text by done. by apply (title_search_false_line (c2 :: l)).
  - destruct (N.eqb_spec c NL); [done|]. by apply title_search_false_line.
Qed.

Lemma title_search_last_line l :
  no_title_start l = true → NL ∉ l → title_search true l = None.
Proof.
  intros Hs Hn. destruct l as [|c l]; [done|].
  apply not_elem_of_cons in Hn as [Hc Hn]. simpl in *.
  destruct (N.eqb_spec c HASH) as [->|Hh]; simpl.
  - destruct l as [|c2 l]; [done|]. apply negb_true_iff in Hs.
    rewrite title_at_text by done. by apply title_search_false_last.
  - destruct (N.eqb_spec c NL); [done|]. by apply title_search_false_last.
Qed.

Lemma title_search_lines ls rest :
  Forall (λ l, no_title_start l = true ∧ NL ∉ l) ls →
  title_search true (lines_then ls rest) = title_search true rest.
Proof.
  unfold lines_then. induction 1 as [|l ls [Hs Hn] _ IH]; [done|].
  cbn [map concat]. rewrite <-!app_assoc. cbn [app].
  by rewrite title_search_skip_line.
Qed.

(** A text is its lines, each but the last followed by a newline. *)
Lemma split_lines_join s :
  ∃ ls l, split_lines s = ls ++ [l] ∧ s = lines_then ls l ∧ Forall (λ l, NL ∉ l) (ls ++ [l]).
Proof.
  induction s as [|c s (ls & l & Hsp & Hs & Hn)].
  - exists [], []. split; [done|]. split; [done|].
    apply Forall_singleton, not_elem_of_nil.
  - simpl. rewrite Hsp. destruct (N.eqb_spec c NL) as [->|Hc].
    + exists ([] :: ls), l. split; [done|].
      split; [unfold lines_then in *; simpl; by rewrite <-Hs|].
      apply Forall_cons. split; [apply not_elem_of_nil|done].
    + destruct ls as [|h t].
      * exists [], (c :: l). unfold lines_then in *. simpl in *. subst s.
        split_and!; [done..|].
        apply Forall_singleton. rewrite Forall_singleton in Hn.
        apply not_elem_of_cons. split; [congruence|done].
      * exists ((c :: h) :: t), l. unfold lines_then in *. simpl in *.
        split; [done|]. split; [by rewrite Hs|].
        apply Forall_cons in Hn as [Hh Hn]. apply Forall_cons. split; [|done].
        apply not_elem_of_cons. split; [congruence|done].
Qed.
End title_facts.

(** X1. When no line of the document can start a top-level heading (no line
    begins with ['#'] followed by white space or by the end of the line),
    the stock name is the stem of the file. *)
Theorem stock_name_falls_back_to_stem (content stem : list N) :
  Forall (λ l, no_title_start l = true) (split_lines content) →
  (parse_markdown_file content stem).1 = stem.
Proof.
  intros H. unfold parse_markdown_file; simpl.
  destruct (split_lines_join content) as (ls & l & Hsp & Hs & Hn).
  rewrite Hsp in H. rewrite Hs.
  apply Forall_app in H as [Hls Hl]. apply Forall_app in Hn as [Hnls Hnl].
  rewrite Forall_singleton in Hl, Hnl.
  rewrite title_search_lines.
  - by rewrite title_search_last_line.
  - rewrite Forall_forall in Hls, Hnls |- *. intros x Hx. split; auto.
Qed.

Lemma stock_name_falls_back_to_stem_witness :
  (parse_markdown_file (lit "##  notes
#hashtag
- item") (lit "600000")).1 = lit "600000".
Proof.
  apply stock_name_falls_back_to_stem. vm_compute. repeat constructor.
Defined.

(** X2. The first line that begins with ['#'] and white space names the
    stock: when only lines that cannot start a top-level heading come
    before it, the stock name is the stripped text that follows the white
    space, up to the end of that line, and the stem is not used. *)
Theorem stock_name_from_first_heading (ls : list (list N)) (ws txt rest stem : list N)
    (c0 : N) (txt' : list N) :
  Forall (λ l, no_title_start l = true ∧ NL ∉ l) ls →
  ws ≠ [] → forallb is_space ws = true →
  txt = c0 :: txt' → is_space c0 = false → NL ∉ txt →
  rest = [] ∨ (∃ r, rest = NL :: r) →
  (parse_markdown_file (lines_then ls (HASH :: ws ++ txt ++ rest)) stem).1 = strip txt.
Proof.
  intros Hls Hws Hsp -> Hc0 Hn Hrest. unfold parse_markdown_file; simpl.
  rewrite title_search_lines by done. simpl.
  unfold title_at. rewrite take_while_app_all, drop_while_app_all by done.
  destruct ws as [|w ws]; [done|]. simpl. rewrite Hc0. simpl.
  apply not_elem_of_cons in Hn as [Hc Hn].
  destruct (N.eqb_spec c0 NL); [done|]. simpl.
  by rewrite take_line.
Qed.

Lemma stock_name_from_first_heading_witness :
  (parse_markdown_file
     (lines_then [lit "## 题材"; lit "### T"] (lit "# " ++ lit "Big Corp  " ++ lit "
tail")) (lit "stem")).1 = lit "Big Corp".
Proof.
  apply (stock_name_from_first_heading [lit "## 题材"; lit "### T"] (lit " ")
           (lit "Big Corp  ") (lit "
tail") (lit "stem") 66 (lit "ig Corp  ")).
  - vm_compute. repeat constructor; set_solver.
  - done.
  - done.
  - done.
  - done.
  - vm_compute. set_solver.
  - right. by eexists.
Defined.

(** ** Mentions, heading by heading *)

Section blocks.
Implicit Types (st : pstate) (d : list (list N * mention)) (line h l g t : list N).
Implicit Types (body pre b : list (list N)).

Lemma parse_line_no_heading st d l :
  topic_match l = None → parse_line (st, d) l = ((parse_line (st, []) l).1, d).
Proof.
  intros H. unfold parse_line. rewrite H. destruct (has_topic st); [|done].
  destruct (list_match l); [done|].
  by destruct (str_eqb (strip l) []), (in_list st).
Qed.

Lemma run_body_cons st l b :
  topic_match l = None → run_body st (l :: b) = run_body (parse_line (st, []) l).1 b.
Proof.
  intros H. unfold run_body. cbn [fold_left].
  by rewrite (parse_line_no_heading st [] l H).
Qed.

Lemma parse_lines_no_heading st d b :
  Forall (λ l, topic_match l = None) b →
  fold_left parse_line b (st, d) = (run_body st b, d).
Proof.
  intros H. revert st. induction H as [|l b Hl _ IH]; intros st; [done|].
  cbn [fold_left]. by rewrite parse_line_no_heading, IH, run_body_cons.
Qed.

Lemma run_body_app st b1 b2 :
  Forall (λ l, topic_match l = None) b1 →
  run_body st (b1 ++ b2) = run_body (run_body st b1) b2.
Proof.
  intros H. unfold run_body at 1 3. by rewrite fold_left_app, parse_lines_no_heading.
Qed.

Lemma parse_line_topic_kept st l :
  topic_match l = None → current_topic (parse_line (st, []) l).1 = current_topic st.
Proof.
  intros H. unfold parse_line. rewrite H. destruct (has_topic st); [|done].
  destruct (list_match l) as [g|].
  - simpl. by destruct (nonempty (strip g)).
  - by destruct (str_eqb (strip l) []), (in_list st).
Qed.

Lemma run_body_topic st b :
  Forall (λ l, topic_match l = None) b → current_topic (run_body st b) = current_topic st.
Proof.
  intros H. revert st. induction H as [|l b Hl _ IH]; intros st; [done|].
  by rewrite run_body_cons, IH, parse_line_topic_kept.
Qed.

Lemma dict_get_set_eq t (v : mention) d : dict_get t (dict_set t v d) = Some v.
Proof.
  induction d as [|[k' v'] d IH]; simpl.
  - by rewrite str_eqb_refl.
  - destruct (str_eqb k' t) eqn:E; simpl; rewrite E; [done|apply IH].
Qed.

Lemma dict_get_set_ne t k (v : mention) d :
  t ≠ k → dict_get k (dict_set t v d) = dict_get k d.
Proof.
  intros Hne. induction d as [|[k' v'] d IH]; simpl.
  - apply str_eqb_neq in Hne. by rewrite Hne.
  - destruct (str_eqb k' t) eqn:E; simpl.
    + apply str_eqb_eq in E. subst k'. apply str_eqb_neq in Hne. by rewrite Hne.
    + by rewrite IH.
Qed.

(** A heading and the lines up to the next heading set one entry. *)
Lemma heading_block pre h g b d :
  topic_match h = Some g → strip g ≠ [] → Forall (λ l, topic_match l = None) b →
  parse_topics_section (pre ++ h :: b) d
  = dict_set (strip g) (block_mention (strip g) b) (parse_topics_section pre d).
Proof.
  intros Hh Hg Hb. unfold parse_topics_section. rewrite fold_left_app.
  destruct (fold_left parse_line pre (pstate_init, d)) as [st1 d1].
  cbn [fold_left]. rewrite (parse_line_heading _ _ _ _ Hh).
  rewrite parse_lines_no_heading by done.
  unfold save_topic at 1. rewrite run_body_topic by done. simpl.
  apply nonempty_true in Hg. by rewrite Hg.
Qed.

Lemma run_notes st ns :
  has_topic st = true → in_list st = false →
  Forall (λ l, topic_match l = None ∧ list_match l = None) ns →
  run_body st ns
  = PState (current_topic st) (attached_topics st) (topic_content st ++ ns) false.
Proof.
  intros Ht Hi H. revert st Ht Hi.
  induction H as [|l ns [Hm Hl] _ IH]; intros st Ht Hi.
  - unfold run_body. simpl. rewrite app_nil_r. destruct st; simpl in *. by subst.
  - rewrite run_body_cons by done. rewrite parse_line_other, Hi by done. simpl.
    rewrite IH by done. simpl. by rewrite <-app_assoc.
Qed.

Lemma run_items st its :
  has_topic st = true →
  Forall (λ l, topic_match l = None ∧ is_Some (list_match l)) its →
  run_body st its
  = PState (current_topic st) (attached_topics st ++ item_names its) (topic_content st)
      (match its with [] => in_list st | _ :: _ => true end).
Proof.
  intros Ht H. revert st Ht.
  induction H as [|l its [Hm [g Hl]] _ IH]; intros st Ht.
  - unfold run_body. simpl. rewrite app_nil_r. by destruct st.
  - rewrite run_body_cons by done. unfold parse_line at 1. rewrite Hm, Ht, Hl. simpl.
    rewrite IH.
    + unfold item_names at 2. cbn [flat_map]. rewrite Hl. fold (item_names its).
      destruct (nonempty (strip g)); simpl.
      * rewrite <-app_assoc. by destruct its.
      * by destruct its.
    + unfold has_topic in *. by destruct (nonempty (strip g)).
Qed.
End blocks.

(** X3. Whatever the document, every topic name the parser returns is not
    empty and has no white space at either end, every comment has no white
    space at either end, and every attached name is not empty and has no
    white space at either end. *)
Theorem parser_output_normalized (content stem t : list N) (m : mention) :
  (t, m) ∈ (parse_markdown_file content stem).2 →
  t ≠ [] ∧ strip t = t ∧ strip (m_comment m) = m_comment m ∧
  ∀ a, a ∈ m_attached m → a ≠ [] ∧ strip a = a.
Proof.
  assert (∀ k v d, k ≠ [] → stripped k → mention_norm v → dict_norm d →
                   dict_norm (dict_set k v d)) as Hset.
  { intros k v d Hk Hsk Hv. induction 1 as [|[k' v'] d' Hi Hd IH]; simpl.
    - constructor; [done|constructor].
    - destruct (str_eqb k' k) eqn:E; constructor; auto.
      simpl in *. destruct Hi as (? & ? & ?). done. }
  pose (st_norm := λ st : pstate,
          (∀ k, current_topic st = Some k → stripped k) ∧
          Forall (λ a, a ≠ [] ∧ stripped a) (attached_topics st)).
  assert (∀ st d, st_norm st → dict_norm d → dict_norm (save_topic st d)) as Hsave.
  { intros st d [Hk Ha] Hd. unfold save_topic.
    destruct (current_topic st) as [k|] eqn:E; [|done].
    destruct (nonempty k) eqn:En; [|done]. apply Hset; auto.
    - by apply nonempty_true.
    - split; [apply strip_stripped|done]. }
  assert (∀ st d line, st_norm st → dict_norm d →
            st_norm (parse_line (st, d) line).1 ∧ dict_norm (parse_line (st, d) line).2)
    as Hline.
  { intros st d line Hst Hd. unfold parse_line.
    destruct (topic_match line) as [g|]; simpl.
    { split; [|by apply Hsave]. split; [|constructor].
      intros k [= <-]. apply strip_stripped. }
    destruct (has_topic st); [|done].
    destruct (list_match line) as [g|]; simpl.
    { split; [|done]. destruct Hst as [Hk Ha].
      destruct (nonempty (strip g)) eqn:E; simpl; split; auto.
      apply Forall_app. split; [done|]. repeat constructor.
      - by apply nonempty_true.
      - apply strip_stripped. }
    by destruct (str_eqb (strip line) []), (in_list st). }
  assert (∀ body st d, st_norm st → dict_norm d →
            st_norm (fold_left parse_line body (st, d)).1
            ∧ dict_norm (fold_left parse_line body (st, d)).2) as Hlines.
  { induction body as [|line body IH]; intros st d Hst Hd; [done|].
    cbn [fold_left]. destruct (Hline st d line Hst Hd) as [Hst' Hd'].
    destruct (parse_line (st, d) line) as [st' d']. by apply IH. }
  assert (∀ d sec, dict_norm d → dict_norm (parse_section d sec)) as Hsec.
  { intros d sec Hd. unfold parse_section. destruct (negb _); [done|].
    destruct (str_eqb _ _); [|done]. unfold parse_topics_section.
    destruct (Hlines (tl (split_lines sec)) pstate_init d) as [Hst' Hd']; [|done|].
    { split; [done|constructor]. }
    destruct (fold_left parse_line _ _) as [st' d']. by apply Hsave. }
  assert (dict_norm (parse_markdown_file content stem).2) as Hall.
  { unfold parse_markdown_file; simpl.
    assert (dict_norm []) as H by constructor. revert H.
    generalize (@nil (list N * mention)).
    induction (re_split_sections content) as [|sec secs IH]; intros d Hd; [done|].
    cbn [fold_left]. by apply IH, Hsec. }
  intros Hin. unfold dict_norm in Hall. rewrite Forall_forall in Hall.
  destruct (Hall _ Hin) as (Ht & Hst & Hc & Ha). simpl in *.
  split; [done|]. split; [done|]. split; [done|].
  intros a Hain. rewrite Forall_forall in Ha. by apply Ha.
Qed.

Lemma parser_output_normalized_witness :
  lit "Theme1" ≠ [] ∧ strip (lit "Theme1") = lit "Theme1" ∧
  strip (m_comment (Mention (lit "some note") [lit "SubA"])) = lit "some note" ∧
  ∀ a, a ∈ m_attached (Mention (lit "some note") [lit "SubA"]) → a ≠ [] ∧ strip a = a.
Proof.
  apply (parser_output_normalized (lit "# StockA

## 题材
###   Theme1  
  some note  
-   SubA  ") (lit "x")).
  vm_compute. apply list_elem_of_here.
Defined.

(** X4. In a topics section, a heading with a non-empty name and the lines
    up to the next heading set the entry of that name in what the lines
    before them gave; the mention they store depends on those lines only,
    so a topic that is headed twice keeps its last mention. *)
Theorem heading_block_sets_entry (pre b : list (list N)) (h g : list N)
    (d : list (list N * mention)) :
  topic_match h = Some g → strip g ≠ [] → Forall (λ l, topic_match l = None) b →
  parse_topics_section (pre ++ h :: b) d
    = dict_set (strip g) (block_mention (strip g) b) (parse_topics_section pre d) ∧
  dict_get (strip g) (parse_topics_section (pre ++ h :: b) d)
    = Some (block_mention (strip g) b) ∧
  ∀ k, k ≠ strip g →
    dict_get k (parse_topics_section (pre ++ h :: b) d)
    = dict_get k (parse_topics_section pre d).
Proof.
  intros Hh Hg Hb. rewrite (heading_block pre h g b d Hh Hg Hb).
  split; [done|]. split; [apply dict_get_set_eq|].
  intros k Hk. by apply dict_get_set_ne.
Qed.

Lemma heading_block_sets_entry_witness :
  dict_get (lit "T")
    (parse_topics_section ([lit "### T"; lit "first"; lit "- a"] ++ lit "###  T " :: [lit "second"]) [])
  = Some (Mention (lit "second") []).
Proof.
  apply (heading_block_sets_entry [lit "### T"; lit "first"; lit "- a"] [lit "second"]
           (lit "###  T ") (lit "T ") []).
  - reflexivity.
  - vm_compute. discriminate.
  - repeat constructor.
Defined.

(** X5. A third-level heading whose text is only white space starts no
    mention: it and the lines up to the next heading add nothing to the
    result (and it ends the mention before it). *)
Theorem blank_heading_discards_block (pre b : list (list N)) (h g : list N)
    (d : list (list N * mention)) :
  topic_match h = Some g → strip g = [] → Forall (λ l, topic_match l = None) b →
  parse_topics_section (pre ++ h :: b) d = parse_topics_section pre d.
Proof.
  intros Hh Hg Hb. unfold parse_topics_section. rewrite fold_left_app.
  destruct (fold_left parse_line pre (pstate_init, d)) as [st1 d1].
  cbn [fold_left]. rewrite (parse_line_heading _ _ _ _ Hh), Hg.
  by rewrite parse_lines_no_topic.
Qed.

Lemma blank_heading_discards_block_witness :
  parse_topics_section ([lit "### T"; lit "note"] ++ lit "###   " :: [lit "lost"; lit "- gone"]) []
  = parse_topics_section [lit "### T"; lit "note"] [].
Proof.
  apply (blank_heading_discards_block _ _ _ (lit " ")).
  - reflexivity.
  - reflexivity.
  - repeat constructor.
Defined.

(** X6. A mention made of text lines, then list items, then a blank line,
    then text lines again: its attached names are the stripped, non-empty
    texts of the items in their order (duplicates kept), and its comment is
    the stripped join of the text lines before and after the list; the
    blank line that ends the list is not part of it. *)
Theorem mention_of_notes_list_notes (h g blank : list N)
    (notes1 items notes2 : list (list N)) :
  topic_match h = Some g → strip g ≠ [] →
  Forall (λ l, topic_match l = None ∧ list_match l = None) notes1 →
  Forall (λ l, topic_match l = None ∧ is_Some (list_match l)) items → items ≠ [] →
  strip blank = [] →
  Forall (λ l, topic_match l = None ∧ list_match l = None) notes2 →
  parse_topics_section (h :: notes1 ++ items ++ blank :: notes2) []
  = [(strip g, Mention (strip (join_lines (notes1 ++ notes2))) (item_names items))].
Proof.
  intros Hh Hg H1 Hi Hne Hb H2.
  assert (Forall (λ l, topic_match l = None) notes1) as H1'.
  { eapply Forall_impl; [done|]. by intros ? [? ?]. }
  assert (Forall (λ l, topic_match l = None) items) as Hi'.
  { eapply Forall_impl; [done|]. by intros ? [? ?]. }
  assert (Forall (λ l, topic_match l = None) notes2) as H2'.
  { eapply Forall_impl; [done|]. by intros ? [? ?]. }
  pose proof (blank_not_heading _ Hb) as Hbh. pose proof (blank_not_item _ Hb) as Hbi.
  pose proof (heading_block [] h g (notes1 ++ items ++ blank :: notes2) [] Hh Hg) as Hblk.
  cbn [app] in Hblk. rewrite Hblk.
  2:{ apply Forall_app. split; [done|]. apply Forall_app. split; [done|].
      by constructor. }
  change (parse_topics_section [] []) with (@nil (list N * mention)). simpl.
  do 2 f_equal. unfold block_mention.
  assert (∀ a c i, has_topic (PState (Some (strip g)) a c i) = true) as Ht.
  { intros a c i. unfold has_topic. simpl. by apply nonempty_true. }
  assert (run_body (PState (Some (strip g)) [] [] false)
            (notes1 ++ items ++ blank :: notes2)
          = PState (Some (strip g)) (item_names items) (notes1 ++ notes2) false) as ->;
    [|done].
  rewrite run_body_app by done.
  rewrite (run_notes _ notes1 (Ht _ _ _) eq_refl H1). cbn [current_topic attached_topics topic_content app].
  rewrite run_body_app by done.
  rewrite (run_items _ items (Ht _ _ _) Hi). cbn [current_topic attached_topics topic_content app].
  rewrite run_body_cons by done.
  destruct items as [|i0 items0]; [done|].
  rewrite parse_line_other by (try done; apply Ht). cbn [in_list].
  apply str_eqb_eq in Hb. rewrite Hb. cbn [fst].
  unfold set_in_list. cbn [current_topic attached_topics topic_content].
  by rewrite (run_notes _ notes2 (Ht _ _ _) eq_refl H2).
Qed.

Lemma mention_of_notes_list_notes_witness :
  parse_topics_section
    (lit "### Theme" :: [lit "intro"] ++ [lit "- x"; lit "-  y "; lit "- x"] ++ lit " " :: [lit "note"]) []
  = [(lit "Theme", Mention (lit "intro
note") [lit "x"; lit "y"; lit "x"])].
Proof.
  apply (mention_of_notes_list_notes (lit "### Theme") (lit "Theme") (lit " ")
           [lit "intro"] [lit "- x"; lit "-  y "; lit "- x"] [lit "note"]).
  - reflexivity.
  - vm_compute. discriminate.
  - repeat constructor.
  - repeat constructor; by eexists.
  - discriminate.
  - reflexivity.
  - repeat constructor.
Defined.

(** ** Who is listed where *)

Section listing.
Implicit Types (s t a c : list N) (d : parsed_doc) (docs : list parsed_doc).

Lemma result_main_lookup docs t :
  r_main_topics (aggregate_docs docs) !! t
  = finalize_topic <$> main_topics (folded docs) !! t.
Proof. unfold aggregate_docs, finalize. simpl. by rewrite lookup_fmap. Qed.

Lemma result_main_is_Some docs t :
  is_Some (r_main_topics (aggregate_docs docs) !! t)
  ↔ ∃ d m, d ∈ docs ∧ (t, m) ∈ d_topics d.
Proof.
  rewrite result_main_lookup, fmap_is_Some, <-elem_of_dom. apply main_domain_docs.
Qed.

Lemma result_attached_membership docs t info a :
  r_main_topics (aggregate_docs docs) !! t = Some info →
  a ∈ attached info ↔ a ≠ [] ∧ ∃ d m, d ∈ docs ∧ (t, m) ∈ d_topics d ∧ a ∈ m_attached m.
Proof.
  intros H. apply aggregate_main_view in H as (_ & _ & -> & _).
  by rewrite elem_of_sorted_elements, all_attached_docs.
Qed.

Lemma result_stocks_membership docs t info s :
  r_main_topics (aggregate_docs docs) !! t = Some info →
  s ∈ stocks info ↔ ∃ d m, d ∈ docs ∧ d_stock_name d = s ∧ (t, m) ∈ d_topics d.
Proof.
  intros H. apply aggregate_main_view in H as (-> & _).
  by rewrite elem_of_sorted_elements, stocks_of_docs.
Qed.

Lemma get_set_lookup (m : gmap (list N) (gset (list N))) a X :
  m !! a = Some X → get_set a m = X.
Proof. intros H. unfold get_set. by rewrite H. Qed.

Lemma doc_paths_elem docs d : d ∈ docs → d_path d ∈ doc_paths (d_stock_name d) docs.
Proof.
  intros H. unfold doc_paths. apply list_elem_of_fmap. exists d. split; [done|].
  by apply list_elem_of_filter.
Qed.

Lemma elem_of_doc_paths docs s p :
  p ∈ doc_paths s docs ↔ ∃ d, d ∈ docs ∧ d_stock_name d = s ∧ d_path d = p.
Proof.
  unfold doc_paths. rewrite list_elem_of_fmap. setoid_rewrite list_elem_of_filter.
  naive_solver.
Qed.

Lemma last_is_Some {A} (l : list A) : is_Some (last l) ↔ l ≠ [].
Proof.
  induction l as [|x l IH] using rev_ind; [split; [by intros [? ?]|done]|].
  rewrite last_snoc. split; [intros _; by destruct l|eauto].
Qed.

Lemma path_of_listed_doc docs d :
  d ∈ docs → is_Some (r_stock_to_path (aggregate_docs docs) !! d_stock_name d).
Proof.
  intros H. change (r_stock_to_path (aggregate_docs docs)) with (stock_to_path (folded docs)).
  rewrite stock_to_path_docs. apply last_is_Some.
  apply doc_paths_elem in H. intros E. rewrite E in H. by apply elem_of_nil in H.
Qed.
End listing.

(** X7. The main topics of the result are the topics that some document
    mentions, and the stocks of a main topic are the names of the documents
    that mention it. *)
Theorem stocks_are_the_mentioning_documents (docs : list parsed_doc) (t : list N) :
  (is_Some (r_main_topics (aggregate_docs docs) !! t)
   ↔ ∃ d m, d ∈ docs ∧ (t, m) ∈ d_topics d) ∧
  ∀ info, r_main_topics (aggregate_docs docs) !! t = Some info →
    ∀ s, s ∈ stocks info
         ↔ ∃ d m, d ∈ docs ∧ d_stock_name d = s ∧ (t, m) ∈ d_topics d.
Proof.
  split; [apply result_main_is_Some|].
  intros info H s. by apply result_stocks_membership.
Qed.

Lemma stocks_are_the_mentioning_documents_witness :
  lit "S2" ∈ [lit "S1"; lit "S2"]
  ↔ ∃ d m, d ∈ [doc_a; doc_b] ∧ d_stock_name d = lit "S2" ∧ (lit "T", m) ∈ d_topics d.
Proof.
  apply (proj2 (stocks_are_the_mentioning_documents [doc_a; doc_b] (lit "T"))
           (TopicInfo [lit "S1"; lit "S2"] (lit "A" ++ NL :: lit "B") [lit "x"; lit "y"]
              {[ lit "S1" := {[ lit "x" ]}; lit "S2" := {[ lit "y"; lit "x" ]} ]})).
  vm_compute. reflexivity.
Defined.

(** X8. An attached name is a key of the two attached-topic mappings exactly
    when it is not empty and some mention lists it; it is then related to
    the main topics whose mentions list it and to the stocks whose
    documents list it.  The empty name is never a key. *)
Theorem attached_mappings_membership (docs : list parsed_doc) (a : list N) :
  (is_Some (r_attached_to_main (aggregate_docs docs) !! a)
   ↔ a ≠ [] ∧ ∃ d t m, d ∈ docs ∧ (t, m) ∈ d_topics d ∧ a ∈ m_attached m) ∧
  (∀ ms, r_attached_to_main (aggregate_docs docs) !! a = Some ms →
     ∀ t, t ∈ ms ↔ ∃ d m, d ∈ docs ∧ (t, m) ∈ d_topics d ∧ a ∈ m_attached m) ∧
  (∀ ss, r_attached_to_stocks (aggregate_docs docs) !! a = Some ss →
     ∀ s, s ∈ ss ↔ ∃ d t m, d ∈ docs ∧ d_stock_name d = s ∧ (t, m) ∈ d_topics d
                            ∧ a ∈ m_attached m).
Proof.
  change (r_attached_to_main (aggregate_docs docs)) with (attached_to_main (folded docs)).
  change (r_attached_to_stocks (aggregate_docs docs))
    with (attached_to_stocks (folded docs)).
  split; [rewrite <-elem_of_dom; apply dom_attached_docs|].
  split.
  - intros ms H t. rewrite <-(get_set_lookup _ _ _ H), attached_to_main_docs.
    assert (a ∈ dom (attached_to_main (folded docs))) as Hd by (apply elem_of_dom; eauto).
    apply dom_attached_docs in Hd as [Ha _]. naive_solver.
  - intros ss H s. rewrite <-(get_set_lookup _ _ _ H), attached_to_stocks_docs.
    assert (a ∈ dom (attached_to_main (folded docs))) as Hd.
    { rewrite dom_attached_same. apply elem_of_dom; eauto. }
    apply dom_attached_docs in Hd as [Ha _]. naive_solver.
Qed.

Lemma attached_mappings_membership_witness :
  lit "T" ∈ ({[ lit "T" ]} : gset (list N))
  ↔ ∃ d m, d ∈ [doc_a; doc_b] ∧ (lit "T", m) ∈ d_topics d ∧ lit "x" ∈ m_attached m.
Proof.
  apply (proj1 (proj2 (attached_mappings_membership [doc_a; doc_b] (lit "x")))).
  vm_compute. reflexivity.
Defined.

(** X9. The path kept for a stock name is the path of the last document
    with that name in the order of discovery, and a name has a path exactly
    when some document has it. *)
Theorem stock_path_last_write_wins (docs : list parsed_doc) (s : list N) :
  r_stock_to_path (aggregate_docs docs) !! s = last (doc_paths s docs) ∧
  (is_Some (r_stock_to_path (aggregate_docs docs) !! s)
   ↔ ∃ d, d ∈ docs ∧ d_stock_name d = s) ∧
  ∀ d, d_stock_name d = s →
    r_stock_to_path (aggregate_docs (docs ++ [d])) !! s = Some (d_path d).
Proof.
  change (r_stock_to_path (aggregate_docs docs)) with (stock_to_path (folded docs)).
  rewrite stock_to_path_docs. split; [done|]. split.
  - rewrite last_is_Some. split.
    + intros H. destruct (doc_paths s docs) as [|p ps] eqn:E; [done|].
      assert (p ∈ doc_paths s docs) as Hp by (rewrite E; left).
      apply elem_of_doc_paths in Hp as (d & ? & ? & ?). eauto.
    + intros (d & Hd & <-) E. apply doc_paths_elem in Hd. rewrite E in Hd.
      by apply elem_of_nil in Hd.
  - intros d Hd.
    change (r_stock_to_path (aggregate_docs (docs ++ [d])))
      with (stock_to_path (folded (docs ++ [d]))).
    rewrite stock_to_path_docs. unfold doc_paths.
    rewrite filter_app, fmap_app, filter_cons, decide_True by done.
    rewrite filter_nil. simpl. by rewrite last_snoc.
Qed.

Lemma stock_path_last_write_wins_witness :
  r_stock_to_path
    (aggregate_docs ([doc_a; doc_b] ++ [ParsedDoc (lit "S1") (lit "moved/s1.md") []]))
    !! lit "S1" = Some (lit "moved/s1.md").
Proof.
  apply (proj2 (proj2 (stock_path_last_write_wins [doc_a; doc_b] (lit "S1")))
           (ParsedDoc (lit "S1") (lit "moved/s1.md") [])).
  reflexivity.
Defined.

(** X10. Every stock that the result lists, under a main topic or under an
    attached topic, has a path, so the renderers always write it as a link
    and never as plain text. *)
Theorem listed_stocks_are_links (docs : list parsed_doc) :
  (∀ t info s, r_main_topics (aggregate_docs docs) !! t = Some info → s ∈ stocks info →
     ∃ p, r_stock_to_path (aggregate_docs docs) !! s = Some p ∧
          main_stock_line t (r_stock_to_path (aggregate_docs docs)) s
          = lit "- [" ++ s ++ lit "](" ++ lit "../../stocks/" ++ p ++ lit "#"
              ++ anchor_of t ++ lit ")" ++ [NL]) ∧
  (∀ a ss s, r_attached_to_stocks (aggregate_docs docs) !! a = Some ss → s ∈ ss →
     ∃ p, r_stock_to_path (aggregate_docs docs) !! s = Some p ∧
          attached_stock_line (r_stock_to_path (aggregate_docs docs)) s
          = lit "- [" ++ s ++ lit "](" ++ lit "../../stocks/" ++ p ++ lit "#题材"
              ++ lit ")" ++ [NL]).
Proof.
  split.
  - intros t info s H Hs. apply (result_stocks_membership _ _ _ _ H) in Hs
      as (d & m & Hd & <- & _).
    destruct (path_of_listed_doc docs d Hd) as [p Hp]. exists p. split; [done|].
    by rewrite main_stock_line_spec, Hp.
  - intros a ss s H Hs.
    change (r_attached_to_stocks (aggregate_docs docs))
      with (attached_to_stocks (folded docs)) in H.
    rewrite <-(get_set_lookup _ _ _ H) in Hs.
    apply attached_to_stocks_docs in Hs as (_ & d & t & m & Hd & <- & _).
    destruct (path_of_listed_doc docs d Hd) as [p Hp]. exists p. split; [done|].
    unfold attached_stock_line. rewrite Hp. cbv zeta. by rewrite <-!app_assoc.
Qed.

Lemma listed_stocks_are_links_witness :
  ∃ p, r_stock_to_path (aggregate_docs [doc_a; doc_b]) !! lit "S1" = Some p ∧
       main_stock_line (lit "T") (r_stock_to_path (aggregate_docs [doc_a; doc_b])) (lit "S1")
       = lit "- [" ++ lit "S1" ++ lit "](" ++ lit "../../stocks/" ++ p ++ lit "#"
           ++ anchor_of (lit "T") ++ lit ")" ++ [NL].
Proof.
  apply (proj1 (listed_stocks_are_links [doc_a; doc_b]) (lit "T")
           (TopicInfo [lit "S1"; lit "S2"] (lit "A" ++ NL :: lit "B") [lit "x"; lit "y"]
              {[ lit "S1" := {[ lit "x" ]}; lit "S2" := {[ lit "y"; lit "x" ]} ]})).
  - vm_compute. reflexivity.
  - apply list_elem_of_here.
Defined.

(** X11. The cross links agree and resolve: a main topic lists an attached
    name exactly when that attached topic lists the main topic; every
    attached name listed by a main topic has its attached-topic document,
    and every main topic listed by an attached topic has its main-topic
    document. *)
Theorem cross_links_resolve (docs : list parsed_doc) :
  (∀ t info a, r_main_topics (aggregate_docs docs) !! t = Some info →
     (a ∈ attached info ↔ t ∈ get_set a (r_attached_to_main (aggregate_docs docs)))) ∧
  (∀ t info a, r_main_topics (aggregate_docs docs) !! t = Some info → a ∈ attached info →
     is_Some (attached_topic_files (aggregate_docs docs) !! a)) ∧
  (∀ a ms t, r_attached_to_main (aggregate_docs docs) !! a = Some ms → t ∈ ms →
     is_Some (main_topic_files (aggregate_docs docs) !! t) ∧
     ∃ info, r_main_topics (aggregate_docs docs) !! t = Some info ∧ a ∈ attached info).
Proof.
  assert (∀ t info a, r_main_topics (aggregate_docs docs) !! t = Some info →
     (a ∈ attached info ↔ t ∈ get_set a (attached_to_main (folded docs)))) as H1.
  { intros t info a H. rewrite (result_attached_membership _ _ _ _ H).
    by rewrite attached_to_main_docs. }
  split; [exact H1|]. split.
  - intros t info a H Ha. apply (H1 _ _ _ H) in Ha.
    unfold attached_topic_files. rewrite map_lookup_imap.
    apply get_set_dom in Ha. apply elem_of_dom in Ha as [ms Hms].
    change (r_attached_to_main (aggregate_docs docs)) with (attached_to_main (folded docs)).
    rewrite Hms. simpl. eauto.
  - intros a ms t H Ht.
    change (r_attached_to_main (aggregate_docs docs))
      with (attached_to_main (folded docs)) in H.
    rewrite <-(get_set_lookup _ _ _ H) in Ht. pose proof Ht as Ht'.
    apply attached_to_main_docs in Ht' as (_ & d & m & Hd & Hi & _).
    assert (is_Some (r_main_topics (aggregate_docs docs) !! t)) as [info Hinfo].
    { apply result_main_is_Some. eauto. }
    split.
    + unfold main_topic_files. rewrite map_lookup_imap, Hinfo. simpl. eauto.
    + exists info. split; [done|]. by apply (H1 _ _ _ Hinfo).
Qed.

Lemma cross_links_resolve_witness :
  is_Some (attached_topic_files (aggregate_docs [doc_a; doc_b]) !! lit "y").
Proof.
  apply (proj1 (proj2 (cross_links_resolve [doc_a; doc_b])) (lit "T")
           (TopicInfo [lit "S1"; lit "S2"] (lit "A" ++ NL :: lit "B") [lit "x"; lit "y"]
              {[ lit "S1" := {[ lit "x" ]}; lit "S2" := {[ lit "y"; lit "x" ]} ]})).
  - vm_compute. reflexivity.
  - apply list_elem_of_further, list_elem_of_here.
Defined.

(** ** What the merged comment holds *)

Section merged_comment.
Implicit Types (c cur : list N) (cs : list (list N)).

Lemma merge_comment_prefix cur c : ∃ q, merge_comment cur c = cur ++ q.
Proof.
  unfold merge_comment. destruct (nonempty c), (nonempty cur) eqn:E; simpl.
  - destruct (str_in c cur); simpl; [exists []|exists (NL :: c)]; by rewrite ?app_nil_r.
  - apply nonempty_false in E. subst. by exists c.
  - exists []. by rewrite app_nil_r.
  - exists []. by rewrite app_nil_r.
Qed.

Lemma merge_comments_prefix cs cur : ∃ q, fold_left merge_comment cs cur = cur ++ q.
Proof.
  revert cur. induction cs as [|c cs IH]; intros cur; simpl.
  - exists []. by rewrite app_nil_r.
  - destruct (IH (merge_comment cur c)) as [q ->].
    destruct (merge_comment_prefix cur c) as [q' ->].
    exists (q' ++ q). by rewrite app_assoc.
Qed.

Lemma merge_comment_contains cur c :
  c ≠ [] → ∃ p q, merge_comment cur c = p ++ c ++ q.
Proof.
  intros Hc. unfold merge_comment. apply nonempty_true in Hc. rewrite Hc.
  destruct (nonempty cur) eqn:E; simpl.
  - destruct (str_in c cur) eqn:Ein; simpl.
    + by apply str_in_spec.
    + exists (cur ++ [NL]), []. by rewrite app_nil_r, <-app_assoc.
  - exists [], []. by rewrite app_nil_r.
Qed.

Lemma merge_comments_contain cs cur c :
  c ∈ cs → c ≠ [] → ∃ p q, fold_left merge_comment cs cur = p ++ c ++ q.
Proof.
  revert cur. induction cs as [|c' cs IH]; intros cur Hin Hc.
  - by apply elem_of_nil in Hin.
  - simpl. apply elem_of_cons in Hin as [<-|Hin]; [|by apply IH].
    destruct (merge_comments_prefix cs (merge_comment cur c)) as [q ->].
    destruct (merge_comment_contains cur c Hc) as (p & q' & ->).
    exists p, (q' ++ q). by rewrite <-!app_assoc.
Qed.

(** A comment that is empty or already inside [cur] leaves [cur] alone. *)
Lemma merge_comment_known cur c :
  c = [] ∨ str_in c cur = true → merge_comment cur c = cur.
Proof.
  intros [->|Hin]; [done|]. unfold merge_comment. rewrite Hin.
  destruct c as [|c0 c]; [done|]. simpl.
  destruct cur as [|x cur]; [|done]. simpl in Hin. discriminate.
Qed.

Lemma merge_comments_known cs cur :
  Forall (λ c, c = [] ∨ str_in c cur = true) cs → fold_left merge_comment cs cur = cur.
Proof.
  induction 1 as [|c cs Hc _ IH]; simpl; [done|].
  by rewrite merge_comment_known.
Qed.

Lemma merge_comments_twice cs cur :
  fold_left merge_comment (cs ++ cs) cur = fold_left merge_comment cs cur.
Proof.
  rewrite fold_left_app. apply merge_comments_known.
  apply Forall_forall. intros c Hc. destruct c as [|c0 c]; [by left|]. right.
  apply str_in_spec. by apply merge_comments_contain.
Qed.
End merged_comment.

(** X12. No commentary is lost and the first one leads: every non-empty
    comment of a mention of the topic occurs inside the merged comment, the
    merged comment begins with the first non-empty one, and it is empty only
    when all of them are. *)
Theorem merged_comment_keeps_every_comment (docs : list parsed_doc) (t : list N)
    (info : topic_info) :
  r_main_topics (aggregate_docs docs) !! t = Some info →
  (∀ c, c ∈ mention_comments t docs → c ≠ [] → ∃ p q, comment info = p ++ c ++ q) ∧
  (∀ c, head (filter (λ c, c ≠ []) (mention_comments t docs)) = Some c →
        ∃ q, comment info = c ++ q) ∧
  (comment info = [] ↔ Forall (λ c, c = []) (mention_comments t docs)).
Proof.
  intros H. apply aggregate_main_view in H as (_ & -> & _ & _).
  rewrite comment_of_docs. split; [|split].
  - intros c Hin Hc. by apply merge_comments_contain.
  - intros c Hh. rewrite merge_comments_filter.
    destruct (filter _ (mention_comments t docs)) as [|c' cs] eqn:E; [done|].
    injection Hh as ->. simpl.
    assert (c ∈ filter (λ c, c ≠ []) (mention_comments t docs)) as Hc.
    { rewrite E. left. }
    apply list_elem_of_filter in Hc as [Hc _].
    replace (merge_comment [] c) with c.
    + apply merge_comments_prefix.
    + unfold merge_comment. apply nonempty_true in Hc. by rewrite Hc.
  - split.
    + intros E. apply Forall_forall. intros c Hin.
      destruct c as [|c0 c]; [done|].
      destruct (merge_comments_contain (mention_comments t docs) [] (c0 :: c) Hin)
        as (p & q & Hpq); [done|].
      rewrite E in Hpq. by destruct p.
    + intros Hall. apply merge_comments_known.
      eapply Forall_impl; [done|]. intros c ->. by left.
Qed.

Lemma merged_comment_keeps_every_comment_witness :
  ∃ p q, lit "A" ++ NL :: lit "B" = p ++ lit "B" ++ q.
Proof.
  assert (r_main_topics (aggregate_docs [doc_a; doc_b]) !! lit "T"
          = Some (TopicInfo [lit "S1"; lit "S2"] (lit "A" ++ NL :: lit "B")
                    [lit "x"; lit "y"]
                    {[ lit "S1" := {[ lit "x" ]}; lit "S2" := {[ lit "y"; lit "x" ]} ]}))
    as H by (vm_compute; reflexivity).
  apply (proj1 (merged_comment_keeps_every_comment _ _ _ H) (lit "B")).
  - vm_compute. apply list_elem_of_further, list_elem_of_here.
  - discriminate.
Defined.

(** ** Corpora with the same mentions *)

Section same_mentions.
Implicit Types (s t a c : list N) (d : parsed_doc).

Lemma finalize_topic_eq (e e' : topic_acc) :
  a_stocks e = a_stocks e' → a_comment e = a_comment e' →
  a_stock_attached e = a_stock_attached e' → finalize_topic e = finalize_topic e'.
Proof. intros H1 H2 H3. unfold finalize_topic. by rewrite H1, H2, H3. Qed.

Lemma result_main_eq (docs docs' : list parsed_doc) :
  dom (main_topics (folded docs)) = dom (main_topics (folded docs')) →
  (∀ t, stocks_of t (folded docs) = stocks_of t (folded docs')) →
  (∀ t, comment_of t (folded docs) = comment_of t (folded docs')) →
  (∀ t, stock_attached_of t (folded docs) = stock_attached_of t (folded docs')) →
  r_main_topics (aggregate_docs docs) = r_main_topics (aggregate_docs docs').
Proof.
  intros Hd Hs Hc Ha. apply map_eq. intros t. rewrite !result_main_lookup.
  assert (is_Some (main_topics (folded docs) !! t)
          ↔ is_Some (main_topics (folded docs') !! t)) as Hi.
  { by rewrite <-!elem_of_dom, Hd. }
  specialize (Hs t). specialize (Hc t). specialize (Ha t).
  unfold stocks_of, comment_of, stock_attached_of, main_entry in *.
  destruct (main_topics (folded docs) !! t) as [e|] eqn:E,
           (main_topics (folded docs') !! t) as [e'|] eqn:E'; simpl in *.
  - f_equal. by apply finalize_topic_eq.
  - destruct Hi as [Hi _]. destruct Hi; [eauto|done].
  - destruct Hi as [_ Hi]. destruct Hi; [eauto|done].
  - done.
Qed.

Context (docs docs' : list parsed_doc).
Context (Hm : ∀ d t m, (t, m) ∈ d_topics d → (d ∈ docs ↔ d ∈ docs')).

Lemma same_main_domain :
  dom (main_topics (folded docs)) = dom (main_topics (folded docs')).
Proof. apply set_eq. intros t. rewrite !main_domain_docs. naive_solver. Qed.

Lemma same_stocks_of t : stocks_of t (folded docs) = stocks_of t (folded docs').
Proof. apply set_eq. intros s. rewrite !stocks_of_docs. naive_solver. Qed.

Lemma same_stock_attached_of t :
  stock_attached_of t (folded docs) = stock_attached_of t (folded docs').
Proof.
  apply gmap_sets_eq.
  - apply set_eq. intros s. rewrite !dom_stock_attached_of_docs. naive_solver.
  - intros s x. rewrite !stock_attached_of_docs. naive_solver.
Qed.

Lemma same_attached_to_main :
  attached_to_main (folded docs) = attached_to_main (folded docs').
Proof.
  apply gmap_sets_eq.
  - apply set_eq. intros s. rewrite !dom_attached_docs. naive_solver.
  - intros s x. rewrite !attached_to_main_docs. naive_solver.
Qed.

Lemma same_attached_to_stocks :
  attached_to_stocks (folded docs) = attached_to_stocks (folded docs').
Proof.
  apply gmap_sets_eq.
  - rewrite <-!dom_attached_same. apply set_eq. intros s.
    rewrite !dom_attached_docs. naive_solver.
  - intros s x. rewrite !attached_to_stocks_docs. naive_solver.
Qed.

Lemma same_main_topics :
  (∀ t, mention_comments t docs = mention_comments t docs') →
  r_main_topics (aggregate_docs docs) = r_main_topics (aggregate_docs docs').
Proof.
  intros Hc. apply result_main_eq.
  - apply same_main_domain.
  - apply same_stocks_of.
  - intros t. by rewrite !comment_of_docs, Hc.
  - apply same_stock_attached_of.
Qed.
End same_mentions.

(** X13. Folding every document a second time changes nothing: the corpus
    followed by itself gives the result of the corpus. *)
Theorem duplicated_corpus_is_harmless (docs : list parsed_doc) :
  aggregate_docs (docs ++ docs) = aggregate_docs docs.
Proof.
  assert (∀ d t m, (t, m) ∈ d_topics d → (d ∈ docs ++ docs ↔ d ∈ docs)) as Hm.
  { intros d t m _. rewrite elem_of_app. naive_solver. }
  assert (r_main_topics (aggregate_docs (docs ++ docs))
          = r_main_topics (aggregate_docs docs)) as H1.
  { apply result_main_eq.
    - by apply same_main_domain.
    - by apply same_stocks_of.
    - intros t. rewrite !comment_of_docs. unfold mention_comments.
      rewrite flat_map_app. apply merge_comments_twice.
    - by apply same_stock_attached_of. }
  assert (stock_to_path (folded (docs ++ docs)) = stock_to_path (folded docs)) as H4.
  { apply map_eq. intros s. rewrite !stock_to_path_docs. unfold doc_paths.
    rewrite filter_app, fmap_app, last_app. by destruct (last _). }
  unfold aggregate_docs, finalize in *. fold (folded (docs ++ docs)) (folded docs) in *.
  simpl in H1. rewrite H1, H4.
  by rewrite (same_attached_to_main _ _ Hm), (same_attached_to_stocks _ _ Hm).
Qed.

(** X14. A document without mentions (no topics section, or none with a
    named heading) changes the result only by its entry in the stock
    paths. *)
Theorem document_without_topics (docs1 docs2 : list parsed_doc) (d0 : parsed_doc) :
  d_topics d0 = [] →
  r_main_topics (aggregate_docs (docs1 ++ d0 :: docs2))
    = r_main_topics (aggregate_docs (docs1 ++ docs2)) ∧
  r_attached_to_main (aggregate_docs (docs1 ++ d0 :: docs2))
    = r_attached_to_main (aggregate_docs (docs1 ++ docs2)) ∧
  r_attached_to_stocks (aggregate_docs (docs1 ++ d0 :: docs2))
    = r_attached_to_stocks (aggregate_docs (docs1 ++ docs2)) ∧
  ∀ s, s ≠ d_stock_name d0 →
    r_stock_to_path (aggregate_docs (docs1 ++ d0 :: docs2)) !! s
    = r_stock_to_path (aggregate_docs (docs1 ++ docs2)) !! s.
Proof.
  intros H0.
  assert (∀ d t m, (t, m) ∈ d_topics d →
            (d ∈ docs1 ++ d0 :: docs2 ↔ d ∈ docs1 ++ docs2)) as Hm.
  { intros d t m Hi. rewrite !elem_of_app, elem_of_cons.
    split; [|naive_solver]. intros [?|[->|?]]; auto.
    rewrite H0 in Hi. by apply elem_of_nil in Hi. }
  split; [|split; [|split]].
  - apply same_main_topics; [done|]. intros t. unfold mention_comments.
    rewrite !flat_map_app. cbn [flat_map]. unfold doc_comments at 2. by rewrite H0.
  - by apply same_attached_to_main.
  - by apply same_attached_to_stocks.
  - intros s Hs.
    change (stock_to_path (folded (docs1 ++ d0 :: docs2)) !! s
            = stock_to_path (folded (docs1 ++ docs2)) !! s).
    rewrite !stock_to_path_docs. unfold doc_paths.
    rewrite !filter_app, filter_cons, decide_False by done. done.
Qed.

Lemma document_without_topics_witness :
  r_main_topics (aggregate_docs ([doc_a] ++ ParsedDoc (lit "S3") (lit "s3.md") [] :: [doc_b]))
  = r_main_topics (aggregate_docs ([doc_a] ++ [doc_b])).
Proof.
  apply (document_without_topics [doc_a] [doc_b] (ParsedDoc (lit "S3") (lit "s3.md") [])).
  reflexivity.
Defined.

(** ** Folding more documents *)

(** X15. Folding further documents only adds: a main topic stays, its
    stocks and attached names stay (in a list that may be longer), its
    comment is extended at the end, and the sets of the attached-topic
    mappings only grow. *)
Theorem result_only_grows (docs more : list parsed_doc) :
  (∀ t info, r_main_topics (aggregate_docs docs) !! t = Some info →
     ∃ info', r_main_topics (aggregate_docs (docs ++ more)) !! t = Some info' ∧
       stocks info ⊆ stocks info' ∧ attached info ⊆ attached info' ∧
       ∃ q, comment info' = comment info ++ q) ∧
  (∀ a ms, r_attached_to_main (aggregate_docs docs) !! a = Some ms →
     ∃ ms', r_attached_to_main (aggregate_docs (docs ++ more)) !! a = Some ms' ∧ ms ⊆ ms') ∧
  (∀ a ss, r_attached_to_stocks (aggregate_docs docs) !! a = Some ss →
     ∃ ss', r_attached_to_stocks (aggregate_docs (docs ++ more)) !! a = Some ss' ∧ ss ⊆ ss').
Proof.
  assert (∀ d, d ∈ docs → d ∈ docs ++ more) as Hsub.
  { intros d Hd. apply elem_of_app. by left. }
  split; [|split].
  - intros t info H.
    assert (is_Some (r_main_topics (aggregate_docs (docs ++ more)) !! t)) as [info' H'].
    { apply result_main_is_Some.
      assert (is_Some (r_main_topics (aggregate_docs docs) !! t)) as Hs by eauto.
      apply result_main_is_Some in Hs as (d & m & ? & ?). exists d, m. auto. }
    exists info'. split; [done|]. split; [|split].
    + intros s. rewrite (result_stocks_membership _ _ _ _ H),
        (result_stocks_membership _ _ _ _ H'). naive_solver.
    + intros a. rewrite (result_attached_membership _ _ _ _ H),
        (result_attached_membership _ _ _ _ H'). naive_solver.
    + apply aggregate_main_view in H as (_ & -> & _).
      apply aggregate_main_view in H' as (_ & -> & _).
      rewrite !comment_of_docs. unfold mention_comments.
      rewrite flat_map_app, fold_left_app. apply merge_comments_prefix.
  - intros a ms H.
    change (attached_to_main (folded docs) !! a = Some ms) in H.
    change (r_attached_to_main (aggregate_docs (docs ++ more)))
      with (attached_to_main (folded (docs ++ more))).
    assert (is_Some (attached_to_main (folded (docs ++ more)) !! a)) as [ms' H'].
    { apply elem_of_dom, dom_attached_docs.
      assert (a ∈ dom (attached_to_main (folded docs))) as Hd by (apply elem_of_dom; eauto).
      apply dom_attached_docs in Hd. naive_solver. }
    exists ms'. split; [done|]. intros t.
    rewrite <-(get_set_lookup _ _ _ H), <-(get_set_lookup _ _ _ H').
    rewrite !attached_to_main_docs. naive_solver.
  - intros a ss H.
    change (attached_to_stocks (folded docs) !! a = Some ss) in H.
    change (r_attached_to_stocks (aggregate_docs (docs ++ more)))
      with (attached_to_stocks (folded (docs ++ more))).
    assert (is_Some (attached_to_stocks (folded (docs ++ more)) !! a)) as [ss' H'].
    { apply elem_of_dom. rewrite <-dom_attached_same. apply dom_attached_docs.
      assert (a ∈ dom (attached_to_main (folded docs))) as Hd.
      { rewrite dom_attached_same. apply elem_of_dom; eauto. }
      apply dom_attached_docs in Hd. naive_solver. }
    exists ss'. split; [done|]. intros s.
    rewrite <-(get_set_lookup _ _ _ H), <-(get_set_lookup _ _ _ H').
    rewrite !attached_to_stocks_docs. naive_solver.
Qed.

Lemma result_only_grows_witness :
  ∃ info', r_main_topics (aggregate_docs ([doc_a] ++ [doc_b])) !! lit "T" = Some info' ∧
    [lit "S1"] ⊆ stocks info' ∧ [lit "x"] ⊆ attached info' ∧
    ∃ q, comment info' = lit "A" ++ q.
Proof.
  apply (proj1 (result_only_grows [doc_a] [doc_b]) (lit "T")
           (TopicInfo [lit "S1"] (lit "A") [lit "x"] {[ lit "S1" := {[ lit "x" ]} ]})).
  vm_compute. reflexivity.
Defined.

(** ** Files that cannot be read *)

(** X16. A file that cannot be read leaves no trace: the result is the
    result for the files that can be read, in the same order. *)
Theorem unreadable_files_are_skipped (files : list md_file) :
  collect_all_topics files
  = collect_all_topics (filter (λ f, is_Some (f_content f)) files).
Proof.
  rewrite !collect_all_topics_docs. f_equal. unfold parse_corpus.
  induction files as [|f files IH]; [done|].
  rewrite filter_cons. cbn [omap list_omap]. fold (omap parse_file files).
  destruct (f_content f) as [content|] eqn:E.
  - rewrite decide_True by eauto. cbn [omap list_omap].
    fold (omap parse_file (filter (λ f, is_Some (f_content f)) files)).
    by rewrite IH.
  - rewrite decide_False by (by intros [? ?]).
    unfold parse_file at 1. by rewrite E.
Qed.

(** ** The pieces of a document *)

Section pieces.
Implicit Types (s sec : list N) (d : list (list N * mention)).

Lemma spaces_strip s : forallb is_space s = true → strip s = [].
Proof. intros H. unfold strip, lstrip. by rewrite drop_while_all. Qed.

Lemma first_line_spaces s :
  forallb is_space s = true → forallb is_space (hd [] (split_lines s)) = true.
Proof.
  induction s as [|c s IH]; [done|]. simpl. intros H.
  apply andb_true_iff in H as [Hc H]. destruct (c =? NL); [done|].
  specialize (IH H). destruct (split_lines s) as [|h t]; simpl in *.
  - by rewrite Hc.
  - by rewrite Hc, IH.
Qed.

(** A piece titled with the label is not blank, so it is parsed. *)
Lemma parse_section_topics d sec :
  section_title sec = topics_label →
  parse_section d sec = parse_topics_section (tl (split_lines sec)) d.
Proof.
  intros H. unfold parse_section.
  destruct (nonempty (strip sec)) eqn:E; simpl.
  - unfold section_title in H. by rewrite H, str_eqb_refl.
  - apply nonempty_false, strip_nil_spaces, first_line_spaces, spaces_strip in E.
    unfold section_title in H. rewrite E in H. discriminate.
Qed.
End pieces.

(** X17. The mentions of a document come from its pieces titled with the
    reserved label and from nothing else: the topics are what the bodies of
    those pieces give, folded into one mapping in their order. *)
Theorem topics_come_from_labelled_pieces (content stem : list N) :
  (parse_markdown_file content stem).2
  = fold_left (λ d sec, parse_topics_section (tl (split_lines sec)) d)
      (filter (λ sec, section_title sec = topics_label) (re_split_sections content)) [].
Proof.
  unfold parse_markdown_file; simpl.
  generalize (@nil (list N * mention)).
  induction (re_split_sections content) as [|sec secs IH]; intros d; [done|].
  cbn [fold_left]. rewrite filter_cons.
  destruct (decide (section_title sec = topics_label)) as [H|H].
  - cbn [fold_left]. by rewrite parse_section_topics, IH.
  - by rewrite parse_section_not_topics, IH.
Qed.

(** ** The attached-topic document *)

(** X18. An attached-topic document is its title, then (when there are
    main topics) the section of the related main topics, sorted, each a
    link into the main-topic directory, followed by a blank line, then (when
    there are stocks) the section of the related stocks, sorted, with no
    blank line after it.  A stock with a path is a link to it with the
    fixed fragment of the topics section; a stock without one is plain. *)
Theorem attached_topic_file_layout (a : list N) (ms ss : gset (list N))
    (s2p : gmap (list N) (list N)) :
  generate_attached_topic_file a ms ss s2p
  = lit "# " ++ a ++ [NL; NL]
    ++ (if decide (ms = ∅) then []
        else lit "## 相关主题材" ++ [NL; NL]
               ++ concat (map main_link_line (sorted_elements ms)) ++ [NL])
    ++ (if decide (ss = ∅) then []
        else lit "## 相关股票" ++ [NL; NL]
               ++ concat (map (attached_stock_line s2p) (sorted_elements ss))) ∧
  (∀ stock p, s2p !! stock = Some p →
     attached_stock_line s2p stock
     = lit "- [" ++ stock ++ lit "](" ++ lit "../../stocks/" ++ p ++ lit "#题材"
         ++ lit ")" ++ [NL]) ∧
  (∀ stock, s2p !! stock = None →
     attached_stock_line s2p stock = lit "- " ++ stock ++ [NL]).
Proof.
  split; [|split].
  - unfold generate_attached_topic_file. cbv zeta.
    destruct (decide (ms = ∅)), (decide (ss = ∅));
      rewrite ?(fold_append (attached_stock_line s2p)), ?(fold_append main_link_line);
      rewrite <-?app_assoc, ?app_nil_r; reflexivity.
  - intros stock p H. unfold attached_stock_line. rewrite H. cbv zeta.
    by rewrite <-!app_assoc.
  - intros stock H. unfold attached_stock_line. by rewrite H.
Qed.

Lemma attached_topic_file_layout_witness :
  attached_stock_line {[ lit "S1" := lit "a/S1.md" ]} (lit "S1")
  = lit "- [S1](../../stocks/a/S1.md#题材)" ++ [NL].
Proof.
  pose proof (attached_topic_file_layout (lit "x") ∅ ∅ {[ lit "S1" := lit "a/S1.md" ]})
    as (_ & H & _).
  rewrite (H (lit "S1") (lit "a/S1.md")); vm_compute; reflexivity.
Defined.
